(** * The incremental merge engine of the prescription extractor

    A shallow embedding of the merge logic of [src/test_V3.py]
    ([Medicine], [PrescriptionData] and the methods
    [_get_default_response], [_merge_prescription_data],
    [_merge_medicines] and [reset_data] of [PrescriptionExtractor]),
    followed by the properties the specification states about it; then
    the cleaning of the response in [_parse_response],
    [_has_existing_data], [get_current_data] and the accumulating end of
    [extract_from_image], with further properties of the code.

    Modelling choices.
    - A Python [str] is the [string] of the bytes of its UTF-8 encoding:
      equality, emptiness, concatenation and the search for an ASCII
      pattern read the same on the text and on its encoding.
      [str.lower] and [str.strip] follow the Unicode character
      database, which is no part of the repository: they are parameters
      ([PyStr]), taken with the four facts about them that the engine
      relies on.  The witnesses and the counterexamples are evaluated on
      ASCII text, with the ASCII case folding and white space
      ([AsciiStr]), where Python does the same.
    - A medicine entry is a Python [dict] with [str] keys and [str]
      values: a [gmap string string].  Dict equality in Python ignores
      insertion order, as equality of [gmap]s does.
    - Medicine dicts are mutable objects that the merge shares between
      its inputs and its result, so they live in a store ([heap]) and
      the medicine lists hold references ([loc]) into it.  The lists and
      the [PrescriptionData] objects that the merge receives are only
      read; the one list and the one record it writes to are created in
      the call, so lists and records are passed as values. *)

From Stdlib Require Import Ascii.
From stdpp Require Import base strings list gmap fin_maps.

#[local] Set Warnings "-clear-no-such-hyp".

(** ** Strings: [lower], [strip] *)

(** [str.lower()] and [str.strip()], as Python has them.  ["none"] and
    the empty string have no cased letter and no white space: lowering
    and stripping leave them as they are. *)
Class PyStr := {
  str_lower : string → string;
  str_strip : string → string;
  str_lower_none : str_lower "none" = "none";
  str_lower_empty : str_lower "" = "";
  str_strip_none : str_strip "none" = "none";
  str_strip_empty : str_strip "" = ""
}.

(** A printable ASCII character other than the space. *)
Definition graphic (c : ascii) : Prop :=
  33 ≤ nat_of_ascii c ∧ nat_of_ascii c ≤ 126.

(** What the cleaning of a response uses of [str.strip()]: it returns a
    part of its argument; a stripped string has nothing left to strip;
    runs of white space around a string (strings that strip to nothing)
    do not count; a string that begins and ends with a printable ASCII
    character other than the space is left as it is. *)
Class PyStripLaws (S : PyStr) : Prop := {
  str_strip_part : ∀ s, ∃ a b, s = a +:+ str_strip s +:+ b;
  str_strip_idemp : ∀ s, str_strip (str_strip s) = str_strip s;
  str_strip_outer : ∀ ws1 s ws2,
    str_strip ws1 = "" → str_strip ws2 = "" →
    str_strip (ws1 +:+ s +:+ ws2) = str_strip s;
  str_strip_graphic : ∀ c t d,
    graphic c → graphic d →
    str_strip (String c (t +:+ String d "")) = String c (t +:+ String d "")
}.

(** The two methods on ASCII text: the letters A-Z are folded, and the
    white space is the tab, the line feed, the vertical tab, the form
    feed, the carriage return, the four separators 0x1c-0x1f and the
    space.  On text of ASCII characters Python does the same. *)
Module AsciiStr.

Definition is_upper (c : ascii) : bool :=
  let n := nat_of_ascii c in (65 <=? n)%nat && (n <=? 90)%nat.

Definition lower_char (c : ascii) : ascii :=
  if is_upper c then ascii_of_nat (nat_of_ascii c + 32) else c.

Fixpoint lower (s : string) : string :=
  match s with
  | EmptyString => EmptyString
  | String c s' => String (lower_char c) (lower s')
  end.

Definition is_space (c : ascii) : bool :=
  let n := nat_of_ascii c in
  ((9 <=? n)%nat && (n <=? 13)%nat) || ((28 <=? n)%nat && (n <=? 32)%nat).

Fixpoint lstrip (s : string) : string :=
  match s with
  | EmptyString => EmptyString
  | String c s' => if is_space c then lstrip s' else s
  end.

Fixpoint rstrip (s : string) : string :=
  match s with
  | EmptyString => EmptyString
  | String c s' =>
      match rstrip s' with
      | EmptyString => if is_space c then EmptyString else String c EmptyString
      | t => String c t
      end
  end.

Definition strip (s : string) : string := rstrip (lstrip s).

(** The string consists of ASCII white space. *)
Fixpoint all_space (s : string) : bool :=
  match s with
  | EmptyString => true
  | String c s' => is_space c && all_space s'
  end.

(** The string does not begin with ASCII white space. *)
Definition unled (s : string) : Prop :=
  match s with
  | EmptyString => True
  | String c _ => is_space c = false
  end.

End AsciiStr.

(** [AsciiStr] as the two methods: what the scenarios of the
    specification and the instances of the properties are evaluated
    with, on ASCII text. *)
Definition ascii_str : PyStr :=
  {| str_lower := AsciiStr.lower;
     str_strip := AsciiStr.strip;
     str_lower_none := eq_refl;
     str_lower_empty := eq_refl;
     str_strip_none := eq_refl;
     str_strip_empty := eq_refl |}.

(** The matching key of a medicine name: [name.lower().strip()]. *)
Definition normalize `{!PyStr} (s : string) : string :=
  str_strip (str_lower s).

(** Python truthiness of a [str]: the empty string is falsy. *)
Definition truthy (s : string) : bool :=
  match s with EmptyString => false | _ => true end.

(** ** The store of medicine dicts *)

Abbreviation dict := (gmap string string).
Abbreviation loc := nat.
Abbreviation heap := (list (gmap string string)).

(** The object a reference denotes.  Every reference a Python program
    holds denotes a live object; the empty dict stands for a location
    that is not allocated, which no well-formed input contains. *)
Definition deref (h : heap) (r : loc) : dict := default ∅ (h !! r).

(** Allocation of a new object: its reference is the next free location. *)
Definition alloc (h : heap) (d : dict) : heap * loc := (h ++ [d], length h).

(** [d.get(k)], whose result is [None] when the key is absent. *)
Definition get (d : dict) (k : string) : option string := d !! k.

(** [d.get(k, dflt)] *)
Definition get_default (d : dict) (k dflt : string) : string :=
  default dflt (d !! k).

(** ** The data classes *)

(** [asdict(Medicine())]: the field defaults of the [Medicine] dataclass. *)
Definition Medicine_asdict : dict :=
  <["medicine_name" := "none"]>
    (<["description" := "none"]>
      (<["qty" := "none"]>
        (<["side_effects" := "none"]> ∅))).

Record PrescriptionData := mkPrescriptionData {
  pharmacy_or_doctor_name : string;
  title_or_doctor_details : string;
  contact_details : string;
  date : string;
  address : string;
  rx_number : string;
  store_number : string;
  medicines_names : list loc
}.

(** [PrescriptionData(medicines_names=ms)]: every scalar field takes its
    default ["none"]; [__post_init__] replaces a [None] list by [[]]. *)
Definition PrescriptionData_init (ms : option (list loc)) : PrescriptionData :=
  {| pharmacy_or_doctor_name := "none";
     title_or_doctor_details := "none";
     contact_details := "none";
     date := "none";
     address := "none";
     rx_number := "none";
     store_number := "none";
     medicines_names := match ms with None => [] | Some l => l end |}.

(** The seven scalar attributes, as the merge loop enumerates them. *)
Inductive field :=
| f_pharmacy_or_doctor_name
| f_title_or_doctor_details
| f_contact_details
| f_date
| f_address
| f_rx_number
| f_store_number.

Definition field_name (f : field) : string :=
  match f with
  | f_pharmacy_or_doctor_name => "pharmacy_or_doctor_name"
  | f_title_or_doctor_details => "title_or_doctor_details"
  | f_contact_details => "contact_details"
  | f_date => "date"
  | f_address => "address"
  | f_rx_number => "rx_number"
  | f_store_number => "store_number"
  end.

Definition scalar_fields : list field :=
  [f_pharmacy_or_doctor_name; f_title_or_doctor_details; f_contact_details;
   f_date; f_address; f_rx_number; f_store_number].

Definition getattr (p : PrescriptionData) (f : field) : string :=
  match f with
  | f_pharmacy_or_doctor_name => pharmacy_or_doctor_name p
  | f_title_or_doctor_details => title_or_doctor_details p
  | f_contact_details => contact_details p
  | f_date => date p
  | f_address => address p
  | f_rx_number => rx_number p
  | f_store_number => store_number p
  end.

Definition setattr (p : PrescriptionData) (f : field) (v : string)
  : PrescriptionData :=
  match f with
  | f_pharmacy_or_doctor_name =>
      mkPrescriptionData v (title_or_doctor_details p) (contact_details p)
        (date p) (address p) (rx_number p) (store_number p) (medicines_names p)
  | f_title_or_doctor_details =>
      mkPrescriptionData (pharmacy_or_doctor_name p) v (contact_details p)
        (date p) (address p) (rx_number p) (store_number p) (medicines_names p)
  | f_contact_details =>
      mkPrescriptionData (pharmacy_or_doctor_name p) (title_or_doctor_details p)
        v (date p) (address p) (rx_number p) (store_number p) (medicines_names p)
  | f_date =>
      mkPrescriptionData (pharmacy_or_doctor_name p) (title_or_doctor_details p)
        (contact_details p) v (address p) (rx_number p) (store_number p)
        (medicines_names p)
  | f_address =>
      mkPrescriptionData (pharmacy_or_doctor_name p) (title_or_doctor_details p)
        (contact_details p) (date p) v (rx_number p) (store_number p)
        (medicines_names p)
  | f_rx_number =>
      mkPrescriptionData (pharmacy_or_doctor_name p) (title_or_doctor_details p)
        (contact_details p) (date p) (address p) v (store_number p)
        (medicines_names p)
  | f_store_number =>
      mkPrescriptionData (pharmacy_or_doctor_name p) (title_or_doctor_details p)
        (contact_details p) (date p) (address p) (rx_number p) v
        (medicines_names p)
  end.

Definition set_medicines_names (p : PrescriptionData) (ms : list loc)
  : PrescriptionData :=
  mkPrescriptionData (pharmacy_or_doctor_name p) (title_or_doctor_details p)
    (contact_details p) (date p) (address p) (rx_number p) (store_number p) ms.

(** The parsed model response [new_data]: a JSON object.  Its scalar
    entries are kept as a dict with [str] values, as the schema of the
    prompt has them, and the entry under ["medicines_names"], when
    present, is a list of medicine dicts. *)
Record NewData := mkNewData {
  nd_scalars : gmap string string;
  nd_medicines : option (list loc)
}.

(** ** [_merge_medicines] *)

(** [med.get('medicine_name', '').lower().strip()] *)
Definition med_name `{!PyStr} (h : heap) (r : loc) : string :=
  normalize (get_default (deref h r) "medicine_name" "").

(** The first loop: the existing entries [med] with
    [med.get('medicine_name') != "none"], in order. *)
Definition retained (h : heap) (existing_medicines : list loc) : list loc :=
  filter (λ r, get (deref h r) "medicine_name" ≠ Some "none") existing_medicines.

(** An entry takes part in the merge when its normalised name is neither
    empty nor ["none"]: the test [if med_name and med_name != "none"]. *)
Definition mergeable `{!PyStr} (h : heap) (e : loc) : bool :=
  truthy (med_name h e) && bool_decide (med_name h e ≠ "none").

(** The body of [for key, value in new_med.items()], for one item. *)
Definition update_item (key value : string) (target : dict) : dict :=
  if decide (value ≠ "none") then
    if truthy value then <[key := value]> target else target
  else target.

(** [for key, value in new_med.items(): ...] run on the matched dict.
    Each key occurs once in [new_med], so the order of the items does
    not matter.  When [new_med] and the matched dict are one object,
    every assignment stores the value the key already has. *)
Definition update_fields (new_med target : dict) : dict :=
  map_fold update_item target new_med.

(** One iteration of [for new_med in new_medicines], on the store and the
    list [merged_medicines]. *)
Definition merge_step `{!PyStr} (st : heap * list loc) (new_med : loc) : heap * list loc :=
  let '(h, merged_medicines) := st in
  let nm := med_name h new_med in
  if mergeable h new_med then
    match list_find (λ existing_med, med_name h existing_med = nm) merged_medicines with
    | Some (existing_index, existing_med) =>
        (<[existing_med := update_fields (deref h new_med) (deref h existing_med)]> h,
         merged_medicines)
    | None => (h, merged_medicines ++ [new_med])
    end
  else st.

(** The two loops of [_merge_medicines]: the existing entries that are
    kept, then the incoming entries one by one. *)
Definition merge_loop `{!PyStr} (h : heap) (new_medicines existing_medicines : list loc)
  : heap * list loc :=
  foldl merge_step (h, retained h existing_medicines) new_medicines.

(** [_merge_medicines]: the loops, then
    [merged_medicines if merged_medicines else [asdict(Medicine())]].
    The set [existing_names] that the method builds first is never read
    and is left out. *)
Definition _merge_medicines `{!PyStr} (h : heap) (new_medicines existing_medicines : list loc)
  : heap * list loc :=
  let '(h', merged_medicines) := merge_loop h new_medicines existing_medicines in
  match merged_medicines with
  | [] => let '(h'', p) := alloc h' Medicine_asdict in (h'', [p])
  | _ => (h', merged_medicines)
  end.

(** ** [_merge_prescription_data] *)

(** The body of [for field in [...]]: one scalar field of [merged] is set. *)
Definition merge_field (new_data : NewData) (existing_data : PrescriptionData)
    (merged : PrescriptionData) (f : field) : PrescriptionData :=
  let new_value := get_default (nd_scalars new_data) (field_name f) "none" in
  let existing_value := getattr existing_data f in
  if decide (new_value ≠ "none") then setattr merged f new_value
  else if decide (existing_value ≠ "none") then setattr merged f existing_value
  else setattr merged f "none".

Definition _merge_prescription_data `{!PyStr} (h : heap) (new_data : NewData)
    (existing_data : PrescriptionData) : heap * PrescriptionData :=
  let merged := PrescriptionData_init None in
  let merged := foldl (merge_field new_data existing_data) merged scalar_fields in
  let '(h', ms) :=
    _merge_medicines h (default [] (nd_medicines new_data))
      (medicines_names existing_data) in
  (h', set_medicines_names merged ms).

(** ** Default response, session state *)

(** [asdict(PrescriptionData(medicines_names=[asdict(Medicine())]))], read
    as a parsed response: all seven scalar keys hold ["none"] and the
    medicine list holds one newly created all-["none"] entry. *)
Definition default_scalars : gmap string string :=
  foldr (λ f m, <[field_name f := "none"]> m) ∅ scalar_fields.

Definition _get_default_response (h : heap) : heap * NewData :=
  let '(h', p) := alloc h Medicine_asdict in
  (h', {| nd_scalars := default_scalars; nd_medicines := Some [p] |}).

(** The extractor object, reduced to the attribute the merge engine uses. *)
Record PrescriptionExtractor := mkExtractor {
  existing_data : PrescriptionData
}.

(** [__init__]: [self.existing_data = PrescriptionData()] *)
Definition PrescriptionExtractor_init : PrescriptionExtractor :=
  {| existing_data := PrescriptionData_init None |}.

(** [reset_data]: [self.existing_data = PrescriptionData()] *)
Definition reset_data (self : PrescriptionExtractor) : PrescriptionExtractor :=
  {| existing_data := PrescriptionData_init None |}.

(** ** Values of records

    [==] on [PrescriptionData] and on lists of dicts compares contents,
    not identities: the value of a record reads its medicine entries
    from the store. *)
Definition medicine_values (h : heap) (ms : list loc) : list dict :=
  deref h <$> ms.

Definition record_value (h : heap) (p : PrescriptionData)
  : list string * list dict :=
  (getattr p <$> scalar_fields, medicine_values h (medicines_names p)).

(** Every reference of a list denotes an allocated object. *)
Definition valid (h : heap) (ms : list loc) : Prop :=
  Forall (λ r, r < length h) ms.

(** ** The field rule, in the specification's words

    The Field Reconciler of the specification: the incoming value unless
    it is ["none"], else the existing value unless it is ["none"], else
    ["none"].  [_merge_prescription_data] is compared with it below. *)
Definition reconcile (incoming existing : string) : string :=
  if decide (incoming = "none") then
    if decide (existing = "none") then "none" else existing
  else incoming.

(** No two entries of a medicine list have the same normalised name. *)
Definition no_duplicate_names `{!PyStr} (h : heap) (ms : list loc) : Prop :=
  NoDup (med_name h <$> ms).

(** ** Example inputs *)

Module Samples.

Definition medicine (name description qty side_effects : string) : dict :=
  <["medicine_name" := name]>
    (<["description" := description]>
      (<["qty" := qty]>
        (<["side_effects" := side_effects]> ∅))).

Definition scalars (pharmacy day : string) : gmap string string :=
  <["pharmacy_or_doctor_name" := pharmacy]>
    (<["title_or_doctor_details" := "none"]>
      (<["contact_details" := "none"]>
        (<["date" := day]>
          (<["address" := "none"]>
            (<["rx_number" := "none"]>
              (<["store_number" := "none"]> ∅)))))).

Definition record (pharmacy day : string) (ms : list loc) : PrescriptionData :=
  setattr (setattr (PrescriptionData_init (Some ms))
    f_pharmacy_or_doctor_name pharmacy) f_date day.

(** The store of scenario B: the accumulated entry at location 0, the
    incoming entry at location 1. *)
Definition store_B : heap :=
  [ medicine "Amoxicillin" "none" "30 tabs" "none";
    medicine "AMOXICILLIN" "none" "none" "drowsiness" ].

Definition existing_B : PrescriptionData := record "CVS" "none" [0].
Definition incoming_B : NewData :=
  {| nd_scalars := scalars "none" "none"; nd_medicines := Some [1] |}.

(** The store of scenario C. *)
Definition store_C : heap :=
  [ medicine "Lisinopril" "none" "none" "none";
    medicine "Metformin" "none" "none" "none" ].

(** An accumulated list that holds the same medicine twice, under two
    spellings. *)
Definition store_dup : heap :=
  [ medicine "Aspirin" "none" "none" "none";
    medicine " aspirin" "none" "10" "none" ].

(** An incoming response that lacks the keys ["date"] and
    ["medicines_names"]. *)
Definition incoming_partial : NewData :=
  {| nd_scalars := <["pharmacy_or_doctor_name" := "CVS"]> ∅;
     nd_medicines := None |}.

End Samples.

(** ** Strings: [startswith], [in], [replace]

    On the bytes of UTF-8 text the search for an ASCII pattern finds
    what the search on the text finds: no byte of a longer character is
    an ASCII byte. *)

Module PyText.

(** [s.startswith(pre)] *)
Fixpoint startswith (s pre : string) : bool :=
  match pre with
  | EmptyString => true
  | String a pre' =>
      match s with
      | EmptyString => false
      | String b s' => bool_decide (a = b) && startswith s' pre'
      end
  end.

(** [pat in s]: [pat] occurs somewhere in [s]. *)
Fixpoint contains (s pat : string) : bool :=
  startswith s pat
  || match s with
     | EmptyString => false
     | String _ s' => contains s' pat
     end.

(** The scan of [s.replace(old, new)] for a non-empty [old]: from left to
    right, an occurrence of [old] is replaced by [new] and the scan
    resumes after it; [skip] counts the characters of the occurrence
    that are still to be passed over. *)
Fixpoint replace_from (old new : string) (skip : nat) (s : string) : string :=
  match s with
  | EmptyString => EmptyString
  | String c s' =>
      match skip with
      | S k => replace_from old new k s'
      | O =>
          if startswith s old
          then new +:+ replace_from old new (String.length old - 1) s'
          else String c (replace_from old new 0 s')
      end
  end.

(** With an empty [old], Python puts [new] before every character and at
    the end. *)
Fixpoint interleave (new s : string) : string :=
  match s with
  | EmptyString => EmptyString
  | String c s' => String c (new +:+ interleave new s')
  end.

(** [s.replace(old, new)] *)
Definition replace (s old new : string) : string :=
  match old with
  | EmptyString => new +:+ interleave new s
  | String _ _ => replace_from old new 0 s
  end.

End PyText.

(** ** [_parse_response]: removing the markdown fences

    The part of [_parse_response] that runs before [json.loads]; the same
    lines clean the response in [extract_prescription_info] of
    [src/test_V2.py] and [src/main-test.py]. *)
Definition clean_response `{!PyStr} (content : string) : string :=
  let content := str_strip content in
  if PyText.startswith content "```json" then
    str_strip
      (PyText.replace (PyText.replace content "```json" "") "```" "")
  else if PyText.startswith content "```" then
    str_strip (PyText.replace content "```" "")
  else content.

(** ** [_has_existing_data] *)

(** [field != "none" and field] *)
Definition meaningful (v : string) : bool :=
  bool_decide (v ≠ "none") && truthy v.

(** [any(... for field in fields_to_check) or len(data.medicines_names) > 0] *)
Definition _has_existing_data (data : PrescriptionData) : bool :=
  existsb meaningful (getattr data <$> scalar_fields)
  || bool_decide (0 < length (medicines_names data)).

(** ** The session: [extract_from_image], [get_current_data] *)

(** [asdict(data)]: a dict with the seven scalar entries and, under
    ["medicines_names"], a new list of new copies of the medicine dicts. *)
Definition asdict_scalars (data : PrescriptionData) : gmap string string :=
  foldr (λ f m, <[field_name f := getattr data f]> m) ∅ scalar_fields.

Definition asdict (h : heap) (data : PrescriptionData) : heap * NewData :=
  (h ++ (deref h <$> medicines_names data),
   {| nd_scalars := asdict_scalars data;
      nd_medicines :=
        Some (seq (length h) (length (medicines_names data))) |}).

(** [get_current_data]: [asdict(self.existing_data)] *)
Definition get_current_data (h : heap) (self : PrescriptionExtractor)
  : heap * NewData :=
  asdict h (existing_data self).

(** What the request and the parse of one call of [extract_from_image]
    deliver to its last lines.
    - [Parsed]: parsed data whose medicine entries are dicts with [str]
      values; the merge runs to its end.
    - [Unmergeable]: parsed data on which [_merge_prescription_data]
      raises (the data are no object, ["medicines_names"] is no list,
      an element is no dict or its name is no [str]), after the loop
      over the incoming entries has dealt with [processed], the entries
      before the offending one.
    - [NoReply]: the request or the parse has raised. *)
Inductive reply :=
| Parsed (parsed_data : NewData)
| Unmergeable (processed : list loc)
| NoReply.

(** What [extract_from_image] returns: [{"error": ...}], a copy of the
    accumulated record, or the parsed data as they are. *)
Inductive result :=
| Error
| Accumulated (data : NewData)
| AsParsed (r : reply).

(** [extract_from_image], from the parsed reply on, inside its
    [try ... except Exception].  With [update_existing] the parsed data
    are merged into [self.existing_data] and a copy of the accumulated
    record is returned; when the merge raises, the entries it has
    already updated in place stay updated, [self.existing_data] is not
    assigned and the error is returned.  Without [update_existing] the
    parsed data are returned and the extractor is left as it is. *)
Definition extract_from_image `{!PyStr} (h : heap) (self : PrescriptionExtractor)
    (r : reply) (update_existing : bool)
  : heap * PrescriptionExtractor * result :=
  match r with
  | NoReply => (h, self, Error)
  | Parsed parsed_data =>
      if update_existing then
        let '(h1, merged) :=
          _merge_prescription_data h parsed_data (existing_data self) in
        let self' := {| existing_data := merged |} in
        let '(h2, data) := asdict h1 (existing_data self') in
        (h2, self', Accumulated data)
      else (h, self, AsParsed r)
  | Unmergeable processed =>
      if update_existing then
        ((merge_loop h processed (medicines_names (existing_data self))).1,
         self, Error)
      else (h, self, AsParsed r)
  end.

(** A response of the model, as [json.loads] delivers it: the medicine
    dicts it has just created, and the reply that refers to them. *)
Definition response : Type := list dict * reply.

(** One accumulating call of [extract_from_image]: the objects of the
    response enter the store, then the call runs. *)
Definition receive `{!PyStr} (st : heap * PrescriptionExtractor) (resp : response)
  : heap * PrescriptionExtractor :=
  (extract_from_image (st.1 ++ resp.1) st.2 resp.2 true).1.

(** The calls of a session, in order. *)
Definition session `{!PyStr} (st : heap * PrescriptionExtractor)
    (resps : list response) : heap * PrescriptionExtractor :=
  foldl receive st resps.

(** The value [new_data.get(field, "none")] of a scalar field. *)
Definition incoming_value (new_data : NewData) (f : field) : string :=
  get_default (nd_scalars new_data) (field_name f) "none".

(** The value an accumulating call brings for a scalar field: that of
    the parsed data when the merge runs to its end; a call that raises
    brings none. *)
Definition brought (r : reply) (f : field) : string :=
  match r with
  | Parsed parsed_data => incoming_value parsed_data f
  | Unmergeable _ | NoReply => "none"
  end.

(** The medicine entries that a reply hands to the merge. *)
Definition reply_entries (r : reply) : list loc :=
  match r with
  | Parsed parsed_data => default [] (nd_medicines parsed_data)
  | Unmergeable processed => processed
  | NoReply => []
  end.


(** The entry is not named ["none"]: the test of the first loop of
    [_merge_medicines]. *)
Definition real_name (h : heap) (r : loc) : Prop :=
  get (deref h r) "medicine_name" ≠ Some "none".

(** * Properties *)

Section properties.
Context {py : PyStr}.

(** ** The store *)

Section store_facts.

Implicit Types (h : heap) (r : loc) (d : dict).

Lemma deref_insert h r d r' :
  deref (<[r := d]> h) r' =
    if decide (r' = r ∧ r < length h) then d else deref h r'.
Proof.
  unfold deref. case_decide as Hc.
  - destruct Hc as [-> Hlt]. by rewrite list_lookup_insert_eq.
  - destruct (decide (r' = r)) as [->|Hne].
    + rewrite list_insert_ge; [done|]. apply Nat.nlt_ge. naive_solver.
    + by rewrite list_lookup_insert_ne.
Qed.

Lemma deref_insert_ne h r d r' : r' ≠ r → deref (<[r := d]> h) r' = deref h r'.
Proof. intros ?. rewrite deref_insert. case_decide; naive_solver. Qed.

Lemma deref_app_l h h2 r : r < length h → deref (h ++ h2) r = deref h r.
Proof. intros ?. unfold deref. by rewrite lookup_app_l. Qed.

Lemma deref_alloc h d : deref (alloc h d).1 (alloc h d).2 = d.
Proof. unfold deref, alloc; simpl. by rewrite list_lookup_middle. Qed.

Lemma deref_dangling h r : length h ≤ r → deref h r = ∅.
Proof. intros ?. unfold deref. by rewrite lookup_ge_None_2. Qed.

End store_facts.

(** ** Normalised names *)

Lemma normalize_none : normalize "none" = "none".
Proof. unfold normalize. by rewrite str_lower_none, str_strip_none. Qed.

Lemma normalize_empty : normalize "" = "".
Proof. unfold normalize. by rewrite str_lower_empty, str_strip_empty. Qed.

Lemma truthy_false s : truthy s = false ↔ s = "".
Proof. destruct s; naive_solver. Qed.

Lemma truthy_true s : truthy s = true ↔ s ≠ "".
Proof. destruct s; naive_solver. Qed.

Lemma mergeable_spec h e :
  mergeable h e = true ↔ med_name h e ≠ "" ∧ med_name h e ≠ "none".
Proof.
  unfold mergeable.
  rewrite andb_true_iff, truthy_true, bool_decide_eq_true. done.
Qed.

Lemma not_mergeable_spec h e :
  mergeable h e = false ↔ med_name h e = "" ∨ med_name h e = "none".
Proof.
  unfold mergeable.
  rewrite andb_false_iff, truthy_false, bool_decide_eq_false.
  split; (intros [?|?]; [by left|right]); [by apply dec_stable|naive_solver].
Qed.

(** A mergeable entry carries a real name under ["medicine_name"]. *)
Lemma mergeable_name h e :
  mergeable h e = true →
  ∃ v, deref h e !! "medicine_name" = Some v ∧ v ≠ "none" ∧ v ≠ ""
       ∧ normalize v = med_name h e.
Proof.
  rewrite mergeable_spec. unfold med_name, get_default.
  destruct (deref h e !! "medicine_name") as [v|] eqn:Hv; simpl.
  - intros [H1 H2]. exists v. split_and!; [done| | |done].
    + intros ->. by rewrite normalize_none in H2.
    + intros ->. by rewrite normalize_empty in H1.
  - rewrite normalize_empty. naive_solver.
Qed.

(** ** Updating a matched entry *)

Lemma update_item_lookup key value target k :
  update_item key value target !! k =
    if decide (k = key ∧ value ≠ "none" ∧ value ≠ "") then Some value
    else target !! k.
Proof.
  unfold update_item. repeat case_decide; try (exfalso; naive_solver).
  - destruct (truthy value) eqn:Ht.
    + destruct_and!; subst. by rewrite lookup_insert_eq.
    + apply truthy_false in Ht. naive_solver.
  - destruct (truthy value) eqn:Ht; [|done].
    apply truthy_true in Ht.
    rewrite lookup_insert_ne; [done|]. naive_solver.
  - done.
Qed.

Lemma update_fields_lookup (new_med target : dict) k :
  update_fields new_med target !! k =
    match new_med !! k with
    | Some v => if decide (v ≠ "none" ∧ v ≠ "") then Some v else target !! k
    | None => target !! k
    end.
Proof.
  unfold update_fields. revert k.
  apply (map_fold_weak_ind (λ (r : dict) (m : dict), ∀ k,
    r !! k = match m !! k with
             | Some v => if decide (v ≠ "none" ∧ v ≠ "") then Some v else target !! k
             | None => target !! k
             end)).
  - intros k. by rewrite lookup_empty.
  - intros i x m r Hi IH k. rewrite update_item_lookup.
    destruct (decide (k = i)) as [->|Hne].
    + rewrite lookup_insert_eq. rewrite IH, Hi.
      repeat case_decide; naive_solver.
    + rewrite lookup_insert_ne by done. rewrite IH.
      case_decide; naive_solver.
Qed.

Lemma update_fields_same (d : dict) : update_fields d d = d.
Proof.
  apply map_eq. intros k. rewrite update_fields_lookup.
  destruct (d !! k); [case_decide|]; done.
Qed.

(** ** One iteration of the loop over the incoming entries *)

Section step_facts.

Implicit Types (h : heap) (ms : list loc) (e r : loc).

(** The three cases of the loop body. *)
Lemma merge_step_skip h ms e :
  mergeable h e = false → merge_step (h, ms) e = (h, ms).
Proof. intros He. unfold merge_step. by rewrite He. Qed.

Lemma merge_step_append h ms e :
  mergeable h e = true →
  list_find (λ x, med_name h x = med_name h e) ms = None →
  merge_step (h, ms) e = (h, ms ++ [e]).
Proof. intros He Hf. unfold merge_step. by rewrite He, Hf. Qed.

Lemma merge_step_update h ms e i r :
  mergeable h e = true →
  list_find (λ x, med_name h x = med_name h e) ms = Some (i, r) →
  merge_step (h, ms) e =
    (<[r := update_fields (deref h e) (deref h r)]> h, ms).
Proof. intros He Hf. unfold merge_step. by rewrite He, Hf. Qed.

Lemma merge_step_cases h ms e :
  merge_step (h, ms) e = (h, ms)
  ∨ (mergeable h e = true ∧ Forall (λ x, med_name h x ≠ med_name h e) ms
     ∧ merge_step (h, ms) e = (h, ms ++ [e]))
  ∨ (∃ i r, mergeable h e = true ∧ ms !! i = Some r
     ∧ med_name h r = med_name h e
     ∧ merge_step (h, ms) e =
         (<[r := update_fields (deref h e) (deref h r)]> h, ms)).
Proof.
  destruct (mergeable h e) eqn:He; [|left; by apply merge_step_skip].
  destruct (list_find (λ x, med_name h x = med_name h e) ms)
    as [[i r]|] eqn:Hf.
  - right; right. exists i, r.
    pose proof Hf as (? & ? & _)%list_find_Some.
    split_and!; try done. by eapply merge_step_update.
  - right; left. split_and!; [done| |by apply merge_step_append].
    by apply list_find_None in Hf.
Qed.

(** Overwriting the fields of a matched entry keeps its normalised name:
    the name written is the incoming one, which matched. *)
Lemma med_name_update h e r r' :
  mergeable h e = true → med_name h r = med_name h e →
  med_name (<[r := update_fields (deref h e) (deref h r)]> h) r' = med_name h r'.
Proof.
  intros He Hr. unfold med_name at 1. rewrite deref_insert.
  case_decide as Hc; [|done]. destruct Hc as [-> _].
  destruct (mergeable_name _ _ He) as (v & Hv & Hn & Hnn & Hnorm).
  unfold get_default. rewrite update_fields_lookup, Hv.
  rewrite decide_True by done. simpl. congruence.
Qed.

Lemma merge_step_med_name st e r :
  med_name (merge_step st e).1 r = med_name st.1 r.
Proof.
  destruct st as [h ms].
  destruct (merge_step_cases h ms e)
    as [-> | [(_ & _ & ->) | (i & r0 & He & _ & Hr & ->)]]; try done.
  simpl. by apply med_name_update.
Qed.

Lemma merge_step_mergeable st e r :
  mergeable (merge_step st e).1 r = mergeable st.1 r.
Proof. unfold mergeable. by rewrite merge_step_med_name. Qed.

Lemma merge_step_length st e : length (merge_step st e).1 = length st.1.
Proof.
  destruct st as [h ms].
  destruct (merge_step_cases h ms e)
    as [-> | [(_ & _ & ->) | (i & r0 & _ & _ & _ & ->)]]; try done.
  simpl. by rewrite length_insert.
Qed.

End step_facts.

(** ** The whole loop *)

Section loop_facts.

Implicit Types (h : heap) (ms new : list loc) (e r : loc).

Lemma foldl_merge_step_med_name new st r :
  med_name (foldl merge_step st new).1 r = med_name st.1 r.
Proof.
  revert st. induction new as [|e new IH]; intros st; cbn [foldl]; [done|].
  by rewrite IH, merge_step_med_name.
Qed.

Lemma foldl_merge_step_length new st :
  length (foldl merge_step st new).1 = length st.1.
Proof.
  revert st. induction new as [|e new IH]; intros st; cbn [foldl]; [done|].
  by rewrite IH, merge_step_length.
Qed.

(** The list only grows, at its end, by incoming entries in their order. *)
Lemma foldl_merge_step_order new h ms :
  ∃ app, app `sublist_of` new ∧ (foldl merge_step (h, ms) new).2 = ms ++ app.
Proof.
  revert h ms. induction new as [|e new IH]; intros h ms; cbn [foldl].
  { exists []. by rewrite app_nil_r. }
  destruct (merge_step_cases h ms e)
    as [-> | [(_ & _ & ->) | (i & r0 & _ & _ & _ & ->)]].
  - destruct (IH h ms) as (app & Hs & ->).
    exists app. split; [by apply sublist_cons|done].
  - destruct (IH h (ms ++ [e])) as (app & Hs & ->).
    exists (e :: app). split; [by apply sublist_skip|].
    by rewrite <- app_assoc.
  - destruct (IH (<[r0:=update_fields (deref h e) (deref h r0)]> h) ms)
      as (app & Hs & ->).
    exists app. split; [by apply sublist_cons|done].
Qed.

(** Distinct normalised names stay distinct. *)
Lemma merge_step_NoDup st e :
  NoDup (med_name st.1 <$> st.2) →
  NoDup (med_name (merge_step st e).1 <$> (merge_step st e).2).
Proof.
  destruct st as [h ms]. cbn [fst snd]. intros Hnd.
  rewrite (list_fmap_ext _ (med_name h))
    by (intros; apply (merge_step_med_name (h, ms))).
  destruct (merge_step_cases h ms e)
    as [-> | [(_ & Hall & ->) | (i & r0 & _ & _ & _ & ->)]]; try done.
  cbn [snd]. rewrite fmap_app. apply NoDup_app. split_and!; [done| |].
  - intros x Hx Hx'. apply list_elem_of_fmap in Hx as (y & -> & Hy).
    apply list_elem_of_singleton in Hx'.
    rewrite Forall_forall in Hall. by apply (Hall y).
  - apply NoDup_singleton.
Qed.

Lemma foldl_merge_step_NoDup new st :
  NoDup (med_name st.1 <$> st.2) →
  NoDup (med_name (foldl merge_step st new).1 <$> (foldl merge_step st new).2).
Proof.
  revert st. induction new as [|e new IH]; intros st Hnd; cbn [foldl]; [done|].
  by apply IH, merge_step_NoDup.
Qed.

End loop_facts.

(** ** The scalar fields *)

Section scalar_facts.

Implicit Types (p : PrescriptionData) (f g : field) (v : string).

Lemma getattr_setattr_eq p f v : getattr (setattr p f v) f = v.
Proof. by destruct f. Qed.

Lemma getattr_setattr_ne p f g v :
  f ≠ g → getattr (setattr p g v) f = getattr p f.
Proof. by destruct f, g. Qed.

Lemma getattr_set_medicines_names p ms f :
  getattr (set_medicines_names p ms) f = getattr p f.
Proof. by destruct f. Qed.

Lemma merge_field_reconcile new_data existing merged f :
  merge_field new_data existing merged f =
    setattr merged f
      (reconcile (get_default (nd_scalars new_data) (field_name f) "none")
                 (getattr existing f)).
Proof. unfold merge_field, reconcile. repeat case_decide; naive_solver. Qed.

Lemma reconcile_none existing : reconcile "none" existing = existing.
Proof. unfold reconcile. repeat case_decide; naive_solver. Qed.

Lemma merged_scalars_getattr new_data existing f :
  getattr (foldl (merge_field new_data existing)
             (PrescriptionData_init None) scalar_fields) f =
    reconcile (get_default (nd_scalars new_data) (field_name f) "none")
              (getattr existing f).
Proof.
  unfold scalar_fields. cbn [foldl]. rewrite !merge_field_reconcile.
  by destruct f.
Qed.

Lemma merge_prescription_data_getattr h new_data existing f :
  getattr (_merge_prescription_data h new_data existing).2 f =
    reconcile (get_default (nd_scalars new_data) (field_name f) "none")
              (getattr existing f).
Proof.
  unfold _merge_prescription_data.
  destruct (_merge_medicines _ _ _) as [h' ms]. cbn [snd].
  by rewrite getattr_set_medicines_names, merged_scalars_getattr.
Qed.

Lemma merge_prescription_data_medicines h new_data existing :
  ((_merge_prescription_data h new_data existing).1,
   medicines_names (_merge_prescription_data h new_data existing).2) =
    _merge_medicines h (default [] (nd_medicines new_data))
      (medicines_names existing).
Proof.
  unfold _merge_prescription_data.
  by destruct (_merge_medicines _ _ _) as [h' ms].
Qed.

End scalar_facts.

(** C1. For each of the seven scalar fields, the merged record's field
    is the incoming value when that is not ["none"], otherwise the
    existing value when that is not ["none"], otherwise ["none"], for
    every incoming response and every existing record.  The incoming
    value of a field is what [new_data.get(field, "none")] reads. *)
Theorem merged_field_precedence (h : heap) (new_data : NewData)
    (existing : PrescriptionData) (f : field) :
  let incoming := get_default (nd_scalars new_data) (field_name f) "none" in
  getattr (_merge_prescription_data h new_data existing).2 f =
    if decide (incoming ≠ "none") then incoming
    else if decide (getattr existing f ≠ "none") then getattr existing f
    else "none".
Proof.
  intros incoming. subst incoming.
  rewrite merge_prescription_data_getattr. unfold reconcile.
  repeat case_decide; naive_solver.
Qed.

(** ** The medicine list *)

(** C6. The merged list is the retained existing entries, in their
    original relative order, followed by the appended incoming entries,
    in their incoming relative order; when that sequence is empty the
    result is one newly created placeholder. *)
Theorem merged_medicines_order (h : heap) (new existing : list loc) :
  ∃ appended,
    retained h existing `sublist_of` existing
    ∧ appended `sublist_of` new
    ∧ (merge_loop h new existing).2 = retained h existing ++ appended
    ∧ (_merge_medicines h new existing).2 =
        match retained h existing ++ appended with
        | [] => [length h]
        | ms => ms
        end.
Proof.
  destruct (foldl_merge_step_order new h (retained h existing))
    as (app & Hsub & Heq).
  exists app. split_and!; [apply sublist_filter|done|done|].
  unfold _merge_medicines.
  pose proof (foldl_merge_step_length new (h, retained h existing)) as Hlen.
  fold (merge_loop h new existing) in Hlen, Heq.
  destruct (merge_loop h new existing) as [h' ms]. cbn [fst snd] in *.
  subst ms. destruct (retained h existing ++ app); [|done].
  unfold alloc. cbn [snd]. by rewrite Hlen.
Qed.

(** C3 as amended. When the retained existing entries have pairwise
    distinct normalised names, no two entries of the merged list have
    equal normalised names. *)
Theorem merged_medicines_no_duplicates (h : heap) (new existing : list loc) :
  no_duplicate_names h (retained h existing) →
  no_duplicate_names (_merge_medicines h new existing).1
    (_merge_medicines h new existing).2.
Proof.
  unfold no_duplicate_names, _merge_medicines. intros Hnd.
  pose proof (foldl_merge_step_NoDup new (h, retained h existing) Hnd) as H.
  fold (merge_loop h new existing) in H.
  destruct (merge_loop h new existing) as [h' ms]. cbn [fst snd] in *.
  destruct ms; [|done]. cbn. apply NoDup_singleton.
Qed.

(** The placeholder entry has no mergeable name and is not retained. *)
Lemma placeholder_not_mergeable h r :
  deref h r = Medicine_asdict → mergeable h r = false.
Proof.
  intros Hr. apply not_mergeable_spec. right.
  unfold med_name. rewrite Hr.
  change (get_default Medicine_asdict "medicine_name" "") with "none".
  apply normalize_none.
Qed.

Lemma placeholder_not_retained h r :
  deref h r = Medicine_asdict → retained h [r] = [].
Proof.
  intros Hr. unfold retained. rewrite filter_cons_False; [done|].
  rewrite Hr. intros Hne. by apply Hne.
Qed.

(** C7. The merged medicine list is never empty: when the merge loop
    leaves an empty sequence, the result is a one-element list whose
    entry is the all-["none"] placeholder.  Merging two empty lists, and
    merging a list holding only a placeholder into a list holding only a
    placeholder, both give exactly that one-element list. *)
Theorem merged_medicines_nonempty (h : heap) (new existing : list loc) :
  let result := _merge_medicines h new existing in
  result.2 ≠ []
  ∧ ((merge_loop h new existing).2 = [] →
     medicine_values result.1 result.2 = [Medicine_asdict])
  ∧ medicine_values (_merge_medicines h [] []).1 (_merge_medicines h [] []).2
      = [Medicine_asdict]
  ∧ (∀ a b, deref h a = Medicine_asdict → deref h b = Medicine_asdict →
       medicine_values (_merge_medicines h [a] [b]).1
         (_merge_medicines h [a] [b]).2 = [Medicine_asdict]).
Proof.
  assert (∀ h' : heap,
    medicine_values (alloc h' Medicine_asdict).1 [(alloc h' Medicine_asdict).2]
      = [Medicine_asdict]) as Hph.
  { intros h'. unfold medicine_values. cbn [fmap list_fmap].
    by rewrite deref_alloc. }
  cbn zeta. split_and!.
  - unfold _merge_medicines.
    destruct (merge_loop h new existing) as [h' [|r ms]]; done.
  - unfold _merge_medicines.
    destruct (merge_loop h new existing) as [h' ms]. cbn [snd].
    intros ->. apply Hph.
  - apply Hph.
  - intros a b Ha Hb. unfold _merge_medicines, merge_loop.
    rewrite (placeholder_not_retained _ _ Hb). cbn [foldl].
    rewrite merge_step_skip by by apply placeholder_not_mergeable.
    apply Hph.
Qed.

(** C8. An incoming entry whose normalised name is empty or ["none"] is
    skipped: the merge gives the same store and the same list as the
    merge of the incoming list without that entry. *)
Theorem degenerate_entry_skipped (h : heap) (before after existing : list loc)
    (e : loc) :
  med_name h e = "" ∨ med_name h e = "none" →
  _merge_medicines h (before ++ e :: after) existing =
    _merge_medicines h (before ++ after) existing.
Proof.
  intros He. unfold _merge_medicines, merge_loop.
  rewrite !foldl_app. cbn [foldl].
  set (st := foldl merge_step (h, retained h existing) before).
  assert (merge_step st e = st) as ->; [|done].
  pose proof (foldl_merge_step_med_name before (h, retained h existing) e)
    as Hname.
  fold st in Hname. destruct st as [h1 ms1]. cbn [fst] in Hname.
  apply merge_step_skip, not_mergeable_spec. by rewrite Hname.
Qed.

(** C5. When an incoming entry [e] matches the result entry [r] (the
    first entry of the result list with its normalised name), the loop
    body leaves the list as it is, gives [r] every field of [e] that is
    neither ["none"] nor empty, and leaves the value [r] has for every
    field of [e] that is ["none"]. *)
Theorem matched_entry_updated (h : heap) (merged : list loc) (e r : loc)
    (i : nat) :
  mergeable h e = true →
  merged !! i = Some r →
  med_name h r = med_name h e →
  (∀ j y, merged !! j = Some y → j < i → med_name h y ≠ med_name h e) →
  let st' := merge_step (h, merged) e in
  st'.2 = merged
  ∧ ∀ key value, get (deref h e) key = Some value →
      (value ≠ "none" → value ≠ "" → get (deref st'.1 r) key = Some value)
      ∧ (value = "none" → get (deref st'.1 r) key = get (deref h r) key).
Proof.
  intros He Hi Hr Hfirst st'. subst st'.
  assert (list_find (λ x, med_name h x = med_name h e) merged = Some (i, r))
    as Hfind by (by apply list_find_Some).
  rewrite (merge_step_update _ _ _ _ _ He Hfind). cbn [fst snd].
  split; [done|]. intros key value Hkv. unfold get in *.
  assert (r < length h) as Hlt.
  { destruct (decide (r < length h)) as [|Hge]; [done|].
    apply mergeable_spec in He as [He _].
    exfalso. apply He. rewrite <- Hr. unfold med_name.
    rewrite deref_dangling by lia. apply normalize_empty. }
  rewrite deref_insert, decide_True by done.
  rewrite update_fields_lookup, Hkv.
  split.
  - intros ??. by rewrite decide_True.
  - intros ->. rewrite decide_False; naive_solver.
Qed.

(** ** What the merge changes in the store *)

Section frame_facts.

Implicit Types (h : heap) (ms new : list loc) (e r : loc) (d : dict).

Lemma merge_step_subseteq st e r : r ∈ st.2 → r ∈ (merge_step st e).2.
Proof.
  destruct st as [h ms]. cbn [snd].
  destruct (merge_step_cases h ms e)
    as [-> | [(_ & _ & ->) | (i & r0 & _ & _ & _ & ->)]]; cbn [snd];
    try done.
  intros ?. apply elem_of_app. by left.
Qed.

Lemma foldl_merge_step_subseteq new st r :
  r ∈ st.2 → r ∈ (foldl merge_step st new).2.
Proof.
  revert st. induction new as [|e new IH]; intros st Hr; cbn [foldl];
    [done|].
  by apply IH, merge_step_subseteq.
Qed.

(** The loop body writes to one object at most: the entry of the list
    that the incoming entry matches. *)
Lemma merge_step_frame st e r d :
  st.1 !! r = Some d →
  (merge_step st e).1 !! r = Some d
  ∨ (r ∈ st.2 ∧ mergeable st.1 e = true ∧ med_name st.1 r = med_name st.1 e).
Proof.
  destruct st as [h ms]. cbn [fst snd]. intros Hd.
  destruct (merge_step_cases h ms e)
    as [-> | [(_ & _ & ->) | (i & r0 & He & Hi & Hr & ->)]]; cbn [fst];
    [by left..|].
  destruct (decide (r = r0)) as [->|Hne].
  - right. split_and!; [|done..]. by eapply list_elem_of_lookup_2.
  - left. by rewrite list_lookup_insert_ne.
Qed.

Lemma foldl_merge_step_frame new st r d :
  st.1 !! r = Some d →
  (foldl merge_step st new).1 !! r = Some d
  ∨ (r ∈ (foldl merge_step st new).2
     ∧ ∃ e, e ∈ new ∧ mergeable st.1 e = true
            ∧ med_name st.1 r = med_name st.1 e).
Proof.
  revert st. induction new as [|e new IH]; intros st Hd; cbn [foldl];
    [by left|].
  destruct (merge_step_frame st e r d Hd) as [Hd'|(Hin & He & Hr)].
  - destruct (IH _ Hd') as [?|(Hin & e' & He' & Hm & Hr)]; [by left|].
    right. split; [done|]. exists e'.
    rewrite merge_step_mergeable in Hm.
    rewrite !merge_step_med_name in Hr.
    split_and!; [|done..]. by apply elem_of_cons; right.
  - right. split.
    + by apply foldl_merge_step_subseteq, merge_step_subseteq.
    + exists e. split_and!; [|done..]. by apply elem_of_cons; left.
Qed.

Lemma merge_medicines_frame h new existing r d :
  h !! r = Some d →
  (_merge_medicines h new existing).1 !! r = Some d
  ∨ (r ∈ (_merge_medicines h new existing).2
     ∧ ∃ e, e ∈ new ∧ mergeable h e = true ∧ med_name h r = med_name h e).
Proof.
  intros Hd. unfold _merge_medicines.
  pose proof (foldl_merge_step_frame new (h, retained h existing) r d Hd)
    as Hframe.
  fold (merge_loop h new existing) in Hframe.
  destruct (merge_loop h new existing) as [h' ms]. cbn [fst snd] in Hframe.
  destruct ms as [|r0 ms]; [|done].
  destruct Hframe as [Hd'|[Hin _]]; [|by apply elem_of_nil in Hin].
  left. cbn [alloc fst].
  rewrite lookup_app_l; [done|]. by eapply lookup_lt_Some.
Qed.

End frame_facts.

(** The entry the loop body writes to is the first of the list with its
    normalised name, and it stays the first. *)
Section first_facts.

Implicit Types (h : heap) (ms new : list loc) (e r : loc) (d : dict).







End first_facts.


(** ** Merging the default response *)

Section default_response_facts.

Implicit Types (h : heap) (ms : list loc) (r : loc).

Lemma valid_deref_app h h2 ms :
  valid h ms → Forall (λ r, deref (h ++ h2) r = deref h r) ms.
Proof.
  intros Hv. eapply Forall_impl; [exact Hv|].
  intros r ?. by apply deref_app_l.
Qed.

Lemma retained_app h h2 ms : valid h ms → retained (h ++ h2) ms = retained h ms.
Proof.
  intros Hv. apply (valid_deref_app h h2) in Hv. unfold retained.
  induction Hv as [|r ms Hr _ IH]; [done|].
  rewrite !filter_cons, Hr, IH. done.
Qed.

Lemma medicine_values_app h h2 ms :
  valid h ms → medicine_values (h ++ h2) ms = medicine_values h ms.
Proof.
  intros Hv. unfold medicine_values.
  by apply Forall_fmap_ext_1, valid_deref_app.
Qed.

Lemma valid_retained h ms : valid h ms → valid h (retained h ms).
Proof.
  unfold valid, retained. rewrite !Forall_forall.
  intros Hv r [_ Hr]%list_elem_of_filter. by apply Hv.
Qed.

Lemma retained_all h ms :
  retained h ms = ms ↔
  Forall (λ r, get (deref h r) "medicine_name" ≠ Some "none") ms.
Proof.
  unfold retained. split.
  - intros Heq. apply Forall_forall. intros r Hr.
    rewrite <- Heq in Hr. by apply list_elem_of_filter in Hr as [? _].
  - induction 1 as [|r ms Hr _ IH]; [done|].
    by rewrite filter_cons_True, IH.
Qed.

Lemma retained_length h ms :
  length (retained h ms) = length ms → retained h ms = ms.
Proof.
  intros Hlen. apply retained_all, Forall_forall. intros r Hr.
  destruct (decide (get (deref h r) "medicine_name" ≠ Some "none"))
    as [|Hn]; [done|].
  unfold retained in Hlen.
  pose proof (length_filter_lt
    (λ r, get (deref h r) "medicine_name" ≠ Some "none") ms r Hr Hn) as Hlt.
  lia.
Qed.

Lemma default_scalars_get f :
  get_default default_scalars (field_name f) "none" = "none".
Proof. by destruct f. Qed.

(** The medicines of the merge of the default response into a record:
    the retained entries of the record, or a placeholder. *)
Lemma merge_default_medicines h ms :
  valid h ms →
  let h1 := (_get_default_response h).1 in
  _merge_medicines h1
    (default [] (nd_medicines (_get_default_response h).2)) ms =
    match retained h ms with
    | [] => (h1 ++ [Medicine_asdict], [length h1])
    | kept => (h1, kept)
    end.
Proof.
  intros Hv. unfold _get_default_response, alloc. cbn.
  unfold _merge_medicines, merge_loop. cbn [foldl].
  rewrite retained_app by done.
  rewrite merge_step_skip.
  - by destruct (retained h ms).
  - apply placeholder_not_mergeable.
    apply (deref_alloc h Medicine_asdict).
Qed.

End default_response_facts.

(** C2 as amended. Merging the default all-["none"] response into a
    record [R] keeps every scalar field of [R]; the merged record equals
    [R] exactly when the medicine list of [R] is non-empty and has no
    entry named ["none"], or holds the placeholder alone. *)
Theorem noop_merge (h : heap) (R : PrescriptionData) :
  valid h (medicines_names R) →
  let empty := _get_default_response h in
  let result := _merge_prescription_data empty.1 empty.2 R in
  getattr result.2 <$> scalar_fields = getattr R <$> scalar_fields
  ∧ (record_value result.1 result.2 = record_value h R
     ↔ (medicines_names R ≠ []
        ∧ Forall (λ r, get (deref h r) "medicine_name" ≠ Some "none")
            (medicines_names R))
       ∨ medicine_values h (medicines_names R) = [Medicine_asdict]).
Proof.
  intros Hv empty result.
  assert (getattr result.2 <$> scalar_fields = getattr R <$> scalar_fields)
    as Hscalars.
  { subst result. unfold scalar_fields. cbn [fmap list_fmap].
    rewrite !merge_prescription_data_getattr.
    subst empty. cbn [_get_default_response alloc snd nd_scalars].
    by rewrite !default_scalars_get, !reconcile_none. }
  split; [done|].
  unfold record_value. rewrite Hscalars.
  pose proof (merge_prescription_data_medicines empty.1 empty.2 R) as Hmed.
  fold result in Hmed. subst empty.
  rewrite (merge_default_medicines h _ Hv) in Hmed.
  destruct result as [h2 m]. cbn [fst snd] in *.
  set (ms := medicines_names R) in *.
  assert (∀ v w : list dict,
    (getattr R <$> scalar_fields, v) = (getattr R <$> scalar_fields, w)
    ↔ v = w) as Hpair by (intros; split; congruence).
  rewrite Hpair. clear Hpair Hscalars.
  destruct (retained h ms) as [|r0 kept] eqn:Hret.
  - (* nothing retained: the result is a new placeholder *)
    injection Hmed as -> ->.
    assert (medicine_values
              ((h ++ [Medicine_asdict]) ++ [Medicine_asdict])
              [length (h ++ [Medicine_asdict])] = [Medicine_asdict]) as ->.
    { unfold medicine_values. cbn [fmap list_fmap]. f_equal.
      apply (deref_alloc (h ++ [Medicine_asdict]) Medicine_asdict). }
    split; [intros <-; by right|].
    intros [[Hne Hall]|Heq]; [|done].
    apply retained_all in Hall. congruence.
  - (* the retained entries are the result *)
    injection Hmed as -> ->.
    rewrite medicine_values_app
      by (rewrite <- Hret; by apply valid_retained).
    split.
    + intros Heq. left.
      assert (retained h ms = ms) as Hall.
      { apply retained_length. rewrite Hret.
        apply (f_equal length) in Heq. unfold medicine_values in Heq.
        by rewrite !length_fmap in Heq. }
      split; [|by apply retained_all]. congruence.
    + intros [[Hne Hall]|Heq].
      * apply retained_all in Hall. congruence.
      * exfalso. unfold medicine_values in Heq.
        destruct ms as [|r [|??]]; try discriminate Heq.
        injection Heq as Hr.
        rewrite (placeholder_not_retained _ _ Hr) in Hret. discriminate Hret.
Qed.

(** ** The record a session starts with *)

(** C9 as amended. The record of a new session, and the record after a
    reset, has every scalar field ["none"] and an empty medicine list. *)
Theorem fresh_record (self : PrescriptionExtractor) :
  let fresh := existing_data (reset_data self) in
  existing_data PrescriptionExtractor_init = fresh
  ∧ (∀ f, getattr fresh f = "none")
  ∧ medicines_names fresh = [].
Proof. cbn zeta. split_and!; [done| |done]. by intros []. Qed.

(** ** Keys the response lacks *)

Lemma get_default_insert_none (m : gmap string string) (k k' : string) :
  m !! k = None →
  get_default (<[k := "none"]> m) k' "none" = get_default m k' "none".
Proof.
  intros Hk. unfold get_default. destruct (decide (k = k')) as [<-|Hne].
  - by rewrite lookup_insert_eq, Hk.
  - by rewrite lookup_insert_ne.
Qed.

(** C10. A scalar key that the response lacks is merged exactly as if
    the response held ["none"] under it, and the merged field is the
    existing one; a response without ["medicines_names"] is merged
    exactly as one with an empty medicine list. *)
Theorem absent_keys (h : heap) (new_data : NewData)
    (existing : PrescriptionData) :
  (∀ key, nd_scalars new_data !! key = None →
     _merge_prescription_data h
       {| nd_scalars := <[key := "none"]> (nd_scalars new_data);
          nd_medicines := nd_medicines new_data |} existing
     = _merge_prescription_data h new_data existing)
  ∧ (∀ f, nd_scalars new_data !! field_name f = None →
       getattr (_merge_prescription_data h new_data existing).2 f
       = getattr existing f)
  ∧ (nd_medicines new_data = None →
       _merge_prescription_data h
         {| nd_scalars := nd_scalars new_data; nd_medicines := Some [] |}
         existing
       = _merge_prescription_data h new_data existing).
Proof.
  split_and!.
  - intros key Hkey. unfold _merge_prescription_data.
    cbn [nd_scalars nd_medicines].
    assert (∀ merged f,
      merge_field
        {| nd_scalars := <[key := "none"]> (nd_scalars new_data);
           nd_medicines := nd_medicines new_data |} existing merged f
      = merge_field new_data existing merged f) as Hfield.
    { intros merged f. unfold merge_field. cbn [nd_scalars].
      by rewrite get_default_insert_none. }
    unfold scalar_fields. cbn [foldl]. by rewrite !Hfield.
  - intros f Hf. rewrite merge_prescription_data_getattr.
    unfold get_default. rewrite Hf. apply reconcile_none.
  - intros Hnone. unfold _merge_prescription_data.
    cbn [nd_scalars nd_medicines]. by rewrite Hnone.
Qed.

(** * Further properties of the merge engine *)

(** ** The medicine list: what the merge keeps, adds and writes *)

Section merge_medicines_facts.

Implicit Types (h : heap) (ms new : list loc) (e r : loc) (d : dict).

Lemma mergeable_allocated h e : mergeable h e = true → e < length h.
Proof.
  intros He. destruct (decide (e < length h)) as [|Hge]; [done|].
  apply mergeable_spec in He as [He _]. exfalso. apply He.
  unfold med_name. rewrite deref_dangling by lia. apply normalize_empty.
Qed.

Lemma med_name_app_l h h2 r : r < length h → med_name (h ++ h2) r = med_name h r.
Proof. intros ?. unfold med_name. by rewrite deref_app_l. Qed.

Lemma merge_medicines_med_name h new existing r :
  r < length h →
  med_name (_merge_medicines h new existing).1 r = med_name h r.
Proof.
  intros Hr. unfold _merge_medicines.
  pose proof (foldl_merge_step_med_name new (h, retained h existing) r) as Hn.
  pose proof (foldl_merge_step_length new (h, retained h existing)) as Hl.
  fold (merge_loop h new existing) in Hn, Hl.
  destruct (merge_loop h new existing) as [h' ms]. cbn [fst snd] in *.
  destruct ms; [|done]. cbn [alloc fst].
  rewrite med_name_app_l by lia. done.
Qed.

Lemma merge_medicines_nonempty h new existing :
  (_merge_medicines h new existing).2 ≠ [].
Proof.
  unfold _merge_medicines.
  by destruct (merge_loop h new existing) as [h' [|r ms]].
Qed.

(** Every incoming entry with a mergeable name finds, at the end of the
    loop, an entry of the list under its normalised name. *)
Lemma foldl_merge_step_present new st e :
  e ∈ new → mergeable st.1 e = true →
  ∃ r, r ∈ (foldl merge_step st new).2 ∧ med_name st.1 r = med_name st.1 e.
Proof.
  revert st. induction new as [|e0 new IH]; intros st Hin He; cbn [foldl].
  { by apply elem_of_nil in Hin. }
  apply elem_of_cons in Hin as [->|Hin].
  - destruct st as [h ms]. cbn [fst] in *.
    destruct (list_find (λ x, med_name h x = med_name h e0) ms)
      as [[i r0]|] eqn:Hf.
    + pose proof Hf as (Hi & Hr & _)%list_find_Some.
      exists r0. split; [|done]. apply foldl_merge_step_subseteq.
      rewrite (merge_step_update _ _ _ _ _ He Hf). cbn [snd].
      by eapply list_elem_of_lookup_2.
    + exists e0. split; [|done]. apply foldl_merge_step_subseteq.
      rewrite (merge_step_append _ _ _ He Hf). cbn [snd].
      apply elem_of_app. right. by left.
  - destruct (IH (merge_step st e0) Hin) as (r & Hr & Hname).
    { by rewrite merge_step_mergeable. }
    exists r. split; [done|]. by rewrite !merge_step_med_name in Hname.
Qed.

(** Every entry of the list at the end of the loop was in the list at
    its start or is an incoming entry with a mergeable name. *)
Lemma foldl_merge_step_origin new st r :
  r ∈ (foldl merge_step st new).2 →
  r ∈ st.2 ∨ (r ∈ new ∧ mergeable st.1 r = true).
Proof.
  revert st. induction new as [|e new IH]; intros st Hr; cbn [foldl] in Hr;
    [by left|].
  apply IH in Hr as [Hr|[Hr Hm]].
  - destruct st as [h ms]. cbn [fst snd].
    destruct (merge_step_cases h ms e)
      as [Heq | [(He & _ & Heq) | (i & r0 & _ & _ & _ & Heq)]];
      rewrite Heq in Hr; cbn [snd] in Hr; [by left| |by left].
    apply elem_of_app in Hr as [Hr|Hr]; [by left|].
    apply list_elem_of_singleton in Hr as ->.
    right. split; [by left|done].
  - right. rewrite merge_step_mergeable in Hm. split; [by right|done].
Qed.

(** As long as the list is empty the loop writes nothing. *)
Lemma foldl_merge_step_empty new st :
  (foldl merge_step st new).2 = [] → foldl merge_step st new = st.
Proof.
  revert st. induction new as [|e new IH]; intros st Hnil; cbn [foldl] in *;
    [done|].
  pose proof (IH _ Hnil) as Heq. rewrite Heq in Hnil |- *.
  destruct st as [h ms].
  pose proof (merge_step_subseteq (h, ms) e) as Hsub. cbn [snd] in Hsub.
  rewrite Hnil in Hsub.
  destruct ms as [|r ms];
    [|pose proof (Hsub r ltac:(by left)) as Hr; by apply elem_of_nil in Hr].
  destruct (mergeable h e) eqn:He; [|by rewrite merge_step_skip].
  rewrite (merge_step_append h [] e He) in Hnil by done. done.
Qed.

Lemma merge_medicines_origin h new existing r :
  r ∈ (_merge_medicines h new existing).2 →
  r ∈ retained h existing
  ∨ (r ∈ new ∧ mergeable h r = true)
  ∨ (r = length h ∧ (_merge_medicines h new existing).2 = [r]
     ∧ merge_loop h new existing = (h, [])
     ∧ (_merge_medicines h new existing).1 = h ++ [Medicine_asdict]).
Proof.
  unfold _merge_medicines.
  pose proof (foldl_merge_step_origin new (h, retained h existing) r) as Ho.
  pose proof (foldl_merge_step_empty new (h, retained h existing)) as He.
  fold (merge_loop h new existing) in Ho, He.
  destruct (merge_loop h new existing) as [h' ms]. cbn [fst snd] in *.
  destruct ms as [|r0 ms].
  - cbn [alloc fst snd]. intros ->%list_elem_of_singleton.
    right; right. specialize (He eq_refl). injection He as Hh Hret.
    subst h'. done.
  - intros Hr. destruct (Ho Hr) as [?|?]; [by left|by right; left].
Qed.

Lemma merge_medicines_valid h new existing :
  valid h existing →
  valid (_merge_medicines h new existing).1 (_merge_medicines h new existing).2.
Proof.
  intros Hv. unfold valid in *. rewrite Forall_forall in *. intros r Hr.
  assert (length h ≤ length (_merge_medicines h new existing).1) as Hle.
  { unfold _merge_medicines.
    pose proof (foldl_merge_step_length new (h, retained h existing)) as Hl.
    fold (merge_loop h new existing) in Hl.
    destruct (merge_loop h new existing) as [h' [|r0 ms]];
      cbn [fst snd alloc] in *; [rewrite length_app|]; lia. }
  destruct (merge_medicines_origin _ _ _ _ Hr)
    as [Hret|[[_ Hm]|(-> & _ & _ & Hh)]].
  - apply list_elem_of_filter in Hret as [_ Hin]. apply Hv in Hin. lia.
  - apply mergeable_allocated in Hm. lia.
  - rewrite Hh, length_app. simpl. lia.
Qed.

(** No entry of the list is named ["none"]: the loop keeps it so. *)
Lemma merge_step_real_names st e :
  Forall (real_name st.1) st.2 →
  Forall (real_name (merge_step st e).1) (merge_step st e).2.
Proof.
  destruct st as [h ms]. cbn [fst snd]. intros Hall.
  destruct (mergeable h e) eqn:He; [|by rewrite merge_step_skip].
  destruct (mergeable_name _ _ He) as (v & Hv & Hn & Hnn & _).
  destruct (list_find (λ x, med_name h x = med_name h e) ms)
    as [[i r0]|] eqn:Hf.
  - rewrite (merge_step_update _ _ _ _ _ He Hf). cbn [fst snd].
    eapply Forall_impl; [exact Hall|]. intros r Hr. unfold real_name, get in *.
    rewrite deref_insert. case_decide as Hc; [|done].
    rewrite update_fields_lookup, Hv, decide_True by done. congruence.
  - rewrite (merge_step_append _ _ _ He Hf). cbn [fst snd].
    apply Forall_app. split; [done|]. apply Forall_singleton.
    unfold real_name, get. rewrite Hv. congruence.
Qed.

Lemma foldl_merge_step_real_names new st :
  Forall (real_name st.1) st.2 →
  Forall (real_name (foldl merge_step st new).1) (foldl merge_step st new).2.
Proof.
  revert st. induction new as [|e new IH]; intros st Hall; cbn [foldl];
    [done|].
  by apply IH, merge_step_real_names.
Qed.

Lemma retained_real_names h existing : Forall (real_name h) (retained h existing).
Proof.
  apply Forall_forall. intros r Hr.
  by apply list_elem_of_filter in Hr as [? _].
Qed.

(** Running the loop body twice on one entry is running it once. *)
Lemma update_fields_twice (new_med target : dict) :
  update_fields new_med (update_fields new_med target)
  = update_fields new_med target.
Proof.
  apply map_eq. intros k. rewrite !update_fields_lookup.
  destruct (new_med !! k); [case_decide|]; done.
Qed.

Lemma merge_step_twice st e : merge_step (merge_step st e) e = merge_step st e.
Proof.
  destruct st as [h ms].
  destruct (mergeable h e) eqn:He; [|by rewrite !merge_step_skip].
  destruct (list_find (λ x, med_name h x = med_name h e) ms)
    as [[i r0]|] eqn:Hf.
  - pose proof Hf as (Hi & Hr & _)%list_find_Some.
    rewrite (merge_step_update _ _ _ _ _ He Hf).
    set (h1 := <[r0 := update_fields (deref h e) (deref h r0)]> h).
    assert (∀ x, med_name h1 x = med_name h x) as Hname.
    { intros x. by apply med_name_update. }
    assert (mergeable h1 e = true) as He1.
    { unfold mergeable. by rewrite Hname. }
    assert (list_find (λ x, med_name h1 x = med_name h1 e) ms = Some (i, r0))
      as Hf1.
    { rewrite <- Hf. apply list_find_ext. intros x. by rewrite !Hname. }
    rewrite (merge_step_update _ _ _ _ _ He1 Hf1). f_equal.
    subst h1. rewrite list_insert_insert_eq. f_equal.
    rewrite !deref_insert.
    destruct (decide (r0 < length h)) as [Hlt|Hge].
    + rewrite (decide_True (P := r0 = r0 ∧ _)) by done.
      destruct (decide (e = r0)) as [->|Hne].
      * rewrite decide_True by done.
        by rewrite !update_fields_same.
      * rewrite decide_False by naive_solver. apply update_fields_twice.
    + by rewrite !decide_False by naive_solver.
  - rewrite (merge_step_append _ _ _ He Hf).
    apply list_find_None in Hf.
    assert (list_find (λ x, med_name h x = med_name h e) (ms ++ [e])
            = Some (length ms, e)) as Hf1.
    { apply list_find_Some. split_and!.
      - by rewrite list_lookup_middle.
      - done.
      - intros j y Hj Hlt. rewrite lookup_app_l in Hj by done.
        rewrite Forall_forall in Hf. apply Hf.
        by eapply list_elem_of_lookup_2. }
    rewrite (merge_step_update _ _ _ _ _ He Hf1). f_equal.
    rewrite update_fields_same. apply list_insert_id'.
    intros Hlt. unfold deref.
    by destruct (h !! e) eqn:Hhe; [|apply lookup_ge_None in Hhe; lia].
Qed.

End merge_medicines_facts.

(** X1. The merge never changes the normalised name of an entry: every
    object that exists before the call has the same matching key after
    it, whatever was written to it. *)
Theorem merge_keeps_normalized_names (h : heap) (new_data : NewData)
    (existing : PrescriptionData) (r : loc) :
  r < length h →
  med_name (_merge_prescription_data h new_data existing).1 r = med_name h r.
Proof.
  intros Hr.
  pose proof (merge_prescription_data_medicines h new_data existing) as Heq.
  apply (f_equal fst) in Heq. cbn [fst] in Heq. rewrite Heq.
  by apply merge_medicines_med_name.
Qed.

(** X2. The merge loses no medicine: every existing entry whose name is
    not ["none"] is an entry of the merged list, and the normalised name
    of every incoming entry with a mergeable name is the normalised name
    of an entry of the merged list. *)
Theorem merge_loses_no_medicine (h : heap) (new existing : list loc) :
  (∀ r, r ∈ existing → get (deref h r) "medicine_name" ≠ Some "none" →
        r ∈ (_merge_medicines h new existing).2)
  ∧ (∀ e, e ∈ new → mergeable h e = true →
        med_name h e ∈
          med_name (_merge_medicines h new existing).1
            <$> (_merge_medicines h new existing).2).
Proof.
  unfold _merge_medicines.
  pose proof (foldl_merge_step_present new (h, retained h existing)) as Hp.
  pose proof (foldl_merge_step_subseteq new (h, retained h existing)) as Hs.
  pose proof (foldl_merge_step_med_name new (h, retained h existing)) as Hn.
  fold (merge_loop h new existing) in Hp, Hs, Hn.
  destruct (merge_loop h new existing) as [h' ms]. cbn [fst snd] in *.
  split.
  - intros r Hin Hname.
    assert (r ∈ ms) as Hr.
    { apply Hs. apply list_elem_of_filter. by split. }
    destruct ms; [by apply elem_of_nil in Hr|done].
  - intros e Hin He. destruct (Hp e Hin He) as (r & Hr & Hname).
    destruct ms as [|r0 ms]; [by apply elem_of_nil in Hr|]. cbn [fst snd].
    apply list_elem_of_fmap. exists r. split; [|done].
    by rewrite Hn.
Qed.

(** X3. The merge invents no medicine: an entry of the merged list is an
    existing entry whose name is not ["none"], or an incoming entry with
    a mergeable name, or the one placeholder the merge creates when the
    loops leave nothing; that placeholder is the only object the merge
    creates. *)
Theorem merged_entry_origin (h : heap) (new existing : list loc) (r : loc) :
  r ∈ (_merge_medicines h new existing).2 →
  (r ∈ existing ∧ get (deref h r) "medicine_name" ≠ Some "none")
  ∨ (r ∈ new ∧ mergeable h r = true)
  ∨ (r = length h
     ∧ (_merge_medicines h new existing).2 = [r]
     ∧ (_merge_medicines h new existing).1 = h ++ [Medicine_asdict]
     ∧ (merge_loop h new existing).2 = []).
Proof.
  intros Hr. destruct (merge_medicines_origin _ _ _ _ Hr)
    as [Hret|[?|(-> & Heq & Hloop & Hh)]].
  - left. apply list_elem_of_filter in Hret as [? ?]. done.
  - right; by left.
  - right; right. by rewrite Hloop.
Qed.

(** X4. Placeholders are not carried along: an entry of the merged list
    is named ["none"] only when the merged list is the one placeholder
    that the merge has created itself. *)
Theorem merged_entries_real_names (h : heap) (new existing : list loc)
    (r : loc) :
  r ∈ (_merge_medicines h new existing).2 →
  get (deref (_merge_medicines h new existing).1 r) "medicine_name"
    = Some "none" →
  r = length h
  ∧ (_merge_medicines h new existing).2 = [r]
  ∧ deref (_merge_medicines h new existing).1 r = Medicine_asdict.
Proof.
  unfold _merge_medicines.
  pose proof (foldl_merge_step_real_names new (h, retained h existing)
                (retained_real_names h existing)) as Hall.
  pose proof (foldl_merge_step_empty new (h, retained h existing)) as He.
  fold (merge_loop h new existing) in Hall, He.
  destruct (merge_loop h new existing) as [h' ms]. cbn [fst snd] in *.
  destruct ms as [|r0 ms].
  - cbn [alloc fst snd]. intros ->%list_elem_of_singleton _.
    specialize (He eq_refl). injection He as Hh _. subst h'.
    split_and!; [done..|]. apply (deref_alloc h Medicine_asdict).
  - intros Hr Hnone. exfalso. rewrite Forall_forall in Hall.
    by apply (Hall r Hr).
Qed.

(** X5. An incoming entry that occurs twice in a row is merged as if it
    occurred once. *)
Theorem repeated_entry_merged_once (h : heap) (before after existing : list loc)
    (e : loc) :
  _merge_medicines h (before ++ e :: e :: after) existing
  = _merge_medicines h (before ++ e :: after) existing.
Proof.
  unfold _merge_medicines, merge_loop. rewrite !foldl_app. cbn [foldl].
  by rewrite merge_step_twice.
Qed.

Lemma merge_medicines_outside (h : heap) (new existing : list loc)
    (r : loc) (d : dict) :
  h !! r = Some d → r ∉ existing → r ∉ new →
  (_merge_medicines h new existing).1 !! r = Some d.
Proof.
  intros Hd Hex Hnew.
  destruct (merge_medicines_frame h new existing r d Hd) as [?|[Hin _]];
    [done|].
  exfalso. destruct (merge_medicines_origin _ _ _ _ Hin)
    as [Hret|[[? _]|(-> & _)]].
  - apply list_elem_of_filter in Hret as [_ ?]. done.
  - done.
  - apply lookup_lt_Some in Hd. lia.
Qed.

(** X6. The merge writes only to entries of the two lists it is given: an
    object that is neither in the existing list nor in the incoming list
    holds after the merge what it held before. *)
Theorem merge_writes_only_to_listed_entries (h : heap) (new_data : NewData)
    (existing : PrescriptionData) (r : loc) (d : dict) :
  h !! r = Some d →
  r ∉ medicines_names existing →
  r ∉ default [] (nd_medicines new_data) →
  (_merge_prescription_data h new_data existing).1 !! r = Some d.
Proof.
  intros Hd Hex Hnew.
  pose proof (merge_prescription_data_medicines h new_data existing) as Heq.
  apply (f_equal fst) in Heq. cbn [fst] in Heq. rewrite Heq.
  by apply merge_medicines_outside.
Qed.

(** * [_has_existing_data] *)

(** X11. After a reset the extractor has no existing data; after any
    merge it has, whatever the response held, because the merged
    medicine list is never empty. *)
Theorem has_existing_data_after_merge (h : heap) (new_data : NewData)
    (self : PrescriptionExtractor) :
  _has_existing_data (existing_data (reset_data self)) = false
  ∧ _has_existing_data
      (_merge_prescription_data h new_data (existing_data self)).2 = true.
Proof.
  split; [done|].
  unfold _has_existing_data. apply orb_true_iff. right.
  apply bool_decide_eq_true.
  pose proof (merge_prescription_data_medicines h new_data (existing_data self))
    as Heq.
  apply (f_equal snd) in Heq. cbn [snd] in Heq. rewrite Heq.
  pose proof (merge_medicines_nonempty h (default [] (nd_medicines new_data))
                (medicines_names (existing_data self))) as Hne.
  destruct (_merge_medicines _ _ _).2; [done|simpl; lia].
Qed.

(** * [get_current_data] *)

Lemma asdict_scalars_get (data : PrescriptionData) (f : field) :
  get (asdict_scalars data) (field_name f) = Some (getattr data f).
Proof. by destruct f. Qed.

Lemma asdict_values (h : heap) (data : PrescriptionData) :
  medicine_values (asdict h data).1 (default [] (nd_medicines (asdict h data).2))
  = medicine_values h (medicines_names data).
Proof.
  unfold asdict, medicine_values.
  cbn [fst snd nd_medicines default from_option id].
  apply list_eq. intros i. rewrite !list_lookup_fmap.
  destruct (medicines_names data !! i) as [r|] eqn:Hi.
  - pose proof (lookup_lt_Some _ _ _ Hi) as Hlt.
    rewrite lookup_seq_lt by done. cbn [fmap option_fmap option_map]. f_equal.
    unfold deref at 1. rewrite lookup_app_r by lia.
    replace (length h + i - length h) with i by lia.
    by rewrite list_lookup_fmap, Hi.
  - apply lookup_ge_None in Hi. by rewrite lookup_seq_ge.
Qed.

(** * More on what the merge writes *)

(** X19. When no incoming entry has a mergeable name, as in the default
    response that stands for an unreadable answer, the merge writes to
    no object: everything in the store holds what it held before. *)
Theorem merge_without_named_entries_writes_nothing (h : heap)
    (new_data : NewData) (existing : PrescriptionData) (r : loc) (d : dict) :
  Forall (λ e, mergeable h e = false) (default [] (nd_medicines new_data)) →
  h !! r = Some d →
  (_merge_prescription_data h new_data existing).1 !! r = Some d.
Proof.
  intros Hnone Hd.
  pose proof (merge_prescription_data_medicines h new_data existing) as Heq.
  apply (f_equal fst) in Heq. cbn [fst] in Heq. rewrite Heq.
  destruct (merge_medicines_frame h (default [] (nd_medicines new_data))
              (medicines_names existing) r d Hd)
    as [?|(_ & e & Hin & He & _)]; [done|].
  rewrite Forall_forall in Hnone. rewrite (Hnone e Hin) in He. done.
Qed.

(** X20. Updating a matched entry touches nothing else: a field that the
    incoming entry lacks, or holds as the empty string, keeps the value
    the matched entry has for it, and every object other than the
    matched entry is left as it is. *)
Theorem matched_entry_rest_untouched (h : heap) (merged : list loc)
    (e r : loc) (i : nat) :
  mergeable h e = true →
  merged !! i = Some r →
  med_name h r = med_name h e →
  (∀ j y, merged !! j = Some y → j < i → med_name h y ≠ med_name h e) →
  let st' := merge_step (h, merged) e in
  (∀ key, get (deref h e) key = None ∨ get (deref h e) key = Some "" →
          get (deref st'.1 r) key = get (deref h r) key)
  ∧ (∀ r', r' ≠ r → deref st'.1 r' = deref h r').
Proof.
  intros He Hi Hr Hfirst st'. subst st'.
  assert (list_find (λ x, med_name h x = med_name h e) merged = Some (i, r))
    as Hfind by (by apply list_find_Some).
  rewrite (merge_step_update _ _ _ _ _ He Hfind). cbn [fst snd].
  split.
  - intros key Hkey. unfold get in *. rewrite deref_insert.
    case_decide; [|done]. rewrite update_fields_lookup.
    destruct Hkey as [-> | ->]; [done|].
    rewrite decide_False; naive_solver.
  - intros r' Hne. by apply deref_insert_ne.
Qed.

(** * The session *)

Section session_facts.

Implicit Types (h : heap) (self : PrescriptionExtractor) (resp : response).

Lemma receive_parsed st objs parsed_data :
  receive st (objs, Parsed parsed_data) =
    let m := _merge_prescription_data (st.1 ++ objs) parsed_data
               (existing_data st.2) in
    (m.1 ++ (deref m.1 <$> medicines_names m.2), {| existing_data := m.2 |}).
Proof.
  unfold receive, extract_from_image, asdict. cbn [fst snd].
  by destruct (_merge_prescription_data _ _ _) as [h1 merged].
Qed.

Lemma receive_unmergeable st objs processed :
  receive st (objs, Unmergeable processed) =
    ((merge_loop (st.1 ++ objs) processed
        (medicines_names (existing_data st.2))).1, st.2).
Proof. done. Qed.

Lemma receive_noreply st objs : receive st (objs, NoReply) = (st.1 ++ objs, st.2).
Proof. done. Qed.

Lemma receive_getattr st resp f :
  getattr (existing_data (receive st resp).2) f =
    reconcile (brought resp.2 f) (getattr (existing_data st.2) f).
Proof.
  destruct resp as [objs [parsed_data|processed|]]; cbn [snd brought].
  - rewrite receive_parsed. cbn [snd existing_data].
    apply merge_prescription_data_getattr.
  - by rewrite receive_unmergeable, reconcile_none.
  - by rewrite receive_noreply, reconcile_none.
Qed.

Lemma valid_app h h2 ms : valid h ms → valid (h ++ h2) ms.
Proof.
  unfold valid. intros Hv. eapply Forall_impl; [exact Hv|].
  intros r Hr. simpl in *. rewrite length_app. lia.
Qed.

Lemma valid_length h h' ms : length h = length h' → valid h ms → valid h' ms.
Proof. unfold valid. by intros ->. Qed.

Lemma med_names_app h h2 ms :
  valid h ms → med_name (h ++ h2) <$> ms = med_name h <$> ms.
Proof.
  intros Hv. apply Forall_fmap_ext_1.
  eapply Forall_impl; [exact Hv|]. intros r ?. by apply med_name_app_l.
Qed.

Lemma merge_medicines_NoDup h new existing :
  NoDup (med_name h <$> existing) →
  NoDup (med_name (_merge_medicines h new existing).1
           <$> (_merge_medicines h new existing).2).
Proof.
  intros Hnd.
  assert (NoDup (med_name h <$> retained h existing)) as Hret.
  { refine (sublist_NoDup _ _ Hnd _).
    apply fmap_sublist. unfold retained. apply sublist_filter. }
  unfold _merge_medicines.
  pose proof (foldl_merge_step_NoDup new (h, retained h existing) Hret) as H.
  fold (merge_loop h new existing) in H.
  destruct (merge_loop h new existing) as [h' ms]. cbn [fst snd] in *.
  destruct ms; [|done]. cbn. apply NoDup_singleton.
Qed.

(** The loop leaves alone what is in neither of its lists. *)
Lemma merge_loop_outside h new existing r d :
  h !! r = Some d → r ∉ existing → r ∉ new →
  (merge_loop h new existing).1 !! r = Some d.
Proof.
  intros Hd Hex Hnew. unfold merge_loop.
  destruct (foldl_merge_step_frame new (h, retained h existing) r d Hd)
    as [?|[Hin _]]; [done|].
  exfalso. apply foldl_merge_step_origin in Hin as [Hret|[? _]]; [|done].
  cbn [snd] in Hret. by apply list_elem_of_filter in Hret as [_ ?].
Qed.

(** An accumulating call keeps the references of the accumulated list
    allocated and their normalised names distinct, also when it raises. *)
Lemma receive_invariant st resp :
  valid st.1 (medicines_names (existing_data st.2)) →
  NoDup (med_name st.1 <$> medicines_names (existing_data st.2)) →
  valid (receive st resp).1 (medicines_names (existing_data (receive st resp).2))
  ∧ NoDup (med_name (receive st resp).1
             <$> medicines_names (existing_data (receive st resp).2)).
Proof.
  destruct st as [h self]. destruct resp as [objs [nd|processed|]];
    cbn [fst snd]; intros Hv Hnd.
  - rewrite receive_parsed. cbn [fst snd existing_data].
    pose proof (merge_prescription_data_medicines (h ++ objs) nd
                  (existing_data self)) as Heq.
    destruct (_merge_prescription_data (h ++ objs) nd (existing_data self))
      as [h1 merged]. cbn [fst snd] in *.
    set (ex := medicines_names (existing_data self)) in *.
    assert (valid h1 (medicines_names merged)) as Hv1.
    { pose proof (merge_medicines_valid (h ++ objs)
                    (default [] (nd_medicines nd)) ex (valid_app _ _ _ Hv))
        as H.
      by rewrite <- Heq in H. }
    assert (NoDup (med_name h1 <$> medicines_names merged)) as Hnd1.
    { pose proof (merge_medicines_NoDup (h ++ objs)
                    (default [] (nd_medicines nd)) ex) as H.
      rewrite <- Heq in H. apply H. by rewrite med_names_app. }
    split; [by apply valid_app|]. by rewrite med_names_app.
  - rewrite receive_unmergeable. cbn [fst snd].
    set (ex := medicines_names (existing_data self)) in *.
    unfold merge_loop. split.
    + eapply valid_length; [|apply (valid_app h objs), Hv].
      symmetry. apply (foldl_merge_step_length processed (h ++ objs, _)).
    + rewrite (list_fmap_ext _ (med_name (h ++ objs)))
        by (intros; apply (foldl_merge_step_med_name processed (h ++ objs, _))).
      by rewrite med_names_app.
  - rewrite receive_noreply. cbn [fst snd].
    split; [by apply valid_app|]. by rewrite med_names_app.
Qed.

Lemma session_invariant resps st :
  valid st.1 (medicines_names (existing_data st.2)) →
  NoDup (med_name st.1 <$> medicines_names (existing_data st.2)) →
  valid (session st resps).1
    (medicines_names (existing_data (session st resps).2))
  ∧ NoDup (med_name (session st resps).1
             <$> medicines_names (existing_data (session st resps).2)).
Proof.
  unfold session. revert st.
  induction resps as [|resp resps IH]; intros st Hv Hnd; cbn [foldl];
    [done|].
  destruct (receive_invariant st resp Hv Hnd) as [Hv' Hnd'].
  by apply IH.
Qed.

Lemma session_app st resps1 resps2 :
  session st (resps1 ++ resps2) = session (session st resps1) resps2.
Proof. unfold session. apply foldl_app. Qed.

Lemma session_getattr_none resps st f :
  Forall (λ resp : response, brought resp.2 f = "none") resps →
  getattr (existing_data (session st resps).2) f
  = getattr (existing_data st.2) f.
Proof.
  unfold session. revert st.
  induction resps as [|resp resps IH]; intros st Hall; cbn [foldl]; [done|].
  apply Forall_cons in Hall as [Hresp Hall].
  rewrite IH by done. rewrite receive_getattr, Hresp. apply reconcile_none.
Qed.

(** A later call does not write to an object that is neither in the
    accumulated list nor among the entries of its reply. *)
Lemma receive_outside st resp r d :
  st.1 !! r = Some d →
  r ∉ medicines_names (existing_data st.2) →
  r ∉ reply_entries resp.2 →
  (receive st resp).1 !! r = Some d.
Proof.
  destruct st as [h self]. destruct resp as [objs [nd|processed|]];
    cbn [fst snd reply_entries]; intros Hd Hex Hnew.
  - rewrite receive_parsed. cbn [fst snd].
    pose proof (merge_prescription_data_medicines (h ++ objs) nd
                  (existing_data self)) as Heq.
    apply (f_equal fst) in Heq. cbn [fst] in Heq.
    assert ((_merge_prescription_data (h ++ objs) nd (existing_data self)).1
              !! r = Some d) as Hd1.
    { rewrite Heq. apply merge_medicines_outside; [|done..].
      by rewrite lookup_app_l by (by eapply lookup_lt_Some). }
    rewrite lookup_app_l by (by eapply lookup_lt_Some). done.
  - rewrite receive_unmergeable. cbn [fst].
    apply merge_loop_outside; [|done..].
    by rewrite lookup_app_l by (by eapply lookup_lt_Some).
  - rewrite receive_noreply. cbn [fst].
    by rewrite lookup_app_l by (by eapply lookup_lt_Some).
Qed.

End session_facts.

(** X7. In a session that starts from a new or reset extractor, whatever
    the calls deliver, also when some of them raise, the accumulated
    medicine list refers to allocated objects only and never holds two
    entries with the same normalised name. *)
Theorem session_medicines_distinct (h : heap) (self : PrescriptionExtractor)
    (resps : list response) :
  let st := session (h, reset_data self) resps in
  valid st.1 (medicines_names (existing_data st.2))
  ∧ no_duplicate_names st.1 (medicines_names (existing_data st.2)).
Proof.
  cbn zeta. unfold no_duplicate_names.
  apply session_invariant; cbn; [apply Forall_nil_2|apply NoDup_nil_2].
Qed.

(** X8. Over a session the last value that is not ["none"] stands: when
    a call whose merge runs to its end brings a value other than
    ["none"] for a scalar field and no later call brings one, the
    accumulated field is that value.  A call that raises brings none. *)
Theorem session_field_last_write (st : heap * PrescriptionExtractor)
    (earlier later : list response) (resp : response) (f : field) :
  brought resp.2 f ≠ "none" →
  Forall (λ r : response, brought r.2 f = "none") later →
  getattr (existing_data (session st (earlier ++ resp :: later)).2) f
  = brought resp.2 f.
Proof.
  intros Hresp Hlater.
  rewrite session_app. unfold session at 1. cbn [foldl].
  fold (session (receive (session st earlier) resp) later).
  rewrite session_getattr_none by done.
  rewrite receive_getattr. unfold reconcile.
  by rewrite decide_False.
Qed.

(** X9. A scalar field for which no call of a session brings a value
    other than ["none"] (the parsed data lack it or give ["none"], or
    the call raises) keeps the value it had when the session started. *)
Theorem session_field_kept (st : heap * PrescriptionExtractor)
    (resps : list response) (f : field) :
  Forall (λ r : response, brought r.2 f = "none") resps →
  getattr (existing_data (session st resps).2) f
  = getattr (existing_data st.2) f.
Proof. apply session_getattr_none. Qed.

(** X12. [get_current_data] returns a snapshot: the copy holds the
    scalar fields and the medicine entries of the accumulated record as
    they are at the call, and a later accumulating call, which updates
    the entries of the accumulated record in place, does not change the
    copy (the later reply does not refer to the objects of the copy). *)
Theorem current_data_is_a_snapshot (h : heap) (self : PrescriptionExtractor)
    (resp : response) :
  valid h (medicines_names (existing_data self)) →
  let snapshot := get_current_data h self in
  let copies := default [] (nd_medicines snapshot.2) in
  Forall (λ e, e ∉ copies) (reply_entries resp.2) →
  (∀ f, get (nd_scalars snapshot.2) (field_name f)
        = Some (getattr (existing_data self) f))
  ∧ medicine_values snapshot.1 copies
    = medicine_values h (medicines_names (existing_data self))
  ∧ medicine_values (receive (snapshot.1, self) resp).1 copies
    = medicine_values snapshot.1 copies.
Proof.
  intros Hv snapshot copies Hresp. split_and!.
  - intros f. apply asdict_scalars_get.
  - apply asdict_values.
  - unfold medicine_values. apply Forall_fmap_ext_1, Forall_forall.
    intros r Hr.
    assert (length h ≤ r < length snapshot.1) as [Hge Hlt].
    { subst copies snapshot. unfold get_current_data, asdict in *.
      cbn [fst snd nd_medicines default from_option id] in *.
      apply elem_of_seq in Hr. rewrite length_app, length_fmap. lia. }
    destruct (snapshot.1 !! r) as [d|] eqn:Hd;
      [|apply lookup_ge_None in Hd; lia].
    unfold deref. rewrite Hd.
    rewrite (receive_outside (snapshot.1, self) resp r d); [done|done| |].
    + cbn [snd]. intros Hin. unfold valid in Hv.
      rewrite Forall_forall in Hv. apply Hv in Hin. lia.
    + intros Hin. rewrite Forall_forall in Hresp. by apply (Hresp r).
Qed.

(** * Cleaning the response *)

Section text_facts.
Import PyText.
Implicit Types (s t p q old new body : string) (c a : ascii).

Lemma append_nil_l s : "" +:+ s = s.
Proof. done. Qed.

Lemma append_cons c s t : String c s +:+ t = String c (s +:+ t).
Proof. done. Qed.

Lemma append_nil_r s : s +:+ "" = s.
Proof.
  induction s as [|c s IH]; [done|]. by rewrite append_cons, IH.
Qed.

Lemma append_assoc s t u : (s +:+ t) +:+ u = s +:+ (t +:+ u).
Proof.
  induction s as [|c s IH]; [done|]. by rewrite !append_cons, IH.
Qed.

Lemma startswith_cons c s a p :
  startswith (String c s) (String a p) = bool_decide (a = c) && startswith s p.
Proof. done. Qed.

Lemma startswith_nil s : startswith s "" = true.
Proof. by destruct s. Qed.

Lemma contains_cons c s p :
  contains (String c s) p = startswith (String c s) p || contains s p.
Proof. done. Qed.

Lemma startswith_contains s p : startswith s p = true → contains s p = true.
Proof. intros H. destruct s; cbn [contains]; by rewrite H. Qed.

Lemma startswith_app_l s p q :
  startswith s (p +:+ q) = true → startswith s p = true.
Proof.
  revert s. induction p as [|a p IH]; intros s; [by destruct s|].
  rewrite append_cons. destruct s as [|c s]; [done|].
  rewrite !startswith_cons. intros [? ?]%andb_true_iff.
  apply andb_true_iff. split; [done|]. by apply IH.
Qed.

Lemma startswith_app_mono s t p :
  startswith s p = true → startswith (s +:+ t) p = true.
Proof.
  revert s. induction p as [|a p IH]; intros s;
    [intros _; apply startswith_nil|].
  destruct s as [|c s]; [done|].
  rewrite append_cons, !startswith_cons. intros [? ?]%andb_true_iff.
  apply andb_true_iff. split; [done|]. by apply IH.
Qed.

Lemma contains_app_l s t p : contains s p = true → contains (s +:+ t) p = true.
Proof.
  induction s as [|c s IH].
  - cbn [contains]. rewrite orb_false_r. intros H.
    apply startswith_contains. by apply (startswith_app_mono "").
  - rewrite append_cons, !contains_cons.
    intros [H|H]%orb_true_iff; apply orb_true_iff.
    + left. by apply (startswith_app_mono (String c s)).
    + right. by apply IH.
Qed.

Lemma contains_app_r s t p : contains t p = true → contains (s +:+ t) p = true.
Proof.
  intros H. induction s as [|c s IH]; [done|].
  rewrite append_cons, contains_cons, IH. apply orb_true_r.
Qed.

Lemma replace_from_skip old new k c s :
  replace_from old new (S k) (String c s) = replace_from old new k s.
Proof. done. Qed.

Lemma replace_from_keep old new c s :
  startswith (String c s) old = false →
  replace_from old new 0 (String c s) = String c (replace_from old new 0 s).
Proof. intros H. cbn [replace_from]. by rewrite H. Qed.

Lemma replace_from_hit old new c s :
  startswith (String c s) old = true →
  replace_from old new 0 (String c s)
  = new +:+ replace_from old new (String.length old - 1) s.
Proof. intros H. cbn [replace_from]. by rewrite H. Qed.

(** Where the pattern begins with a character that the text does not
    hold, the scan copies the text. *)
Lemma replace_from_absent a old new body t :
  contains body (String a "") = false →
  replace_from (String a old) new 0 (body +:+ t)
  = body +:+ replace_from (String a old) new 0 t.
Proof.
  induction body as [|c body IH]; [done|].
  rewrite contains_cons, startswith_cons. intros H.
  apply orb_false_iff in H as [Hc Hbody].
  rewrite startswith_nil, andb_true_r in Hc.
  rewrite !append_cons, replace_from_keep.
  - by rewrite IH.
  - by rewrite startswith_cons, Hc.
Qed.

(** Removing the fences leaves no fence: what remains of a run of
    back-quotes is shorter than a fence. *)
Lemma remove_fences_no_pair s :
  startswith s "``" = false →
  startswith (replace_from "```" "" 0 s) "``" = false.
Proof.
  destruct s as [|c s]; [done|].
  rewrite startswith_cons. intros Hs.
  assert (startswith (String c s) "```" = false) as Hno.
  { rewrite startswith_cons.
    destruct (bool_decide ("`"%char = c)); [|done]. cbn [andb] in *.
    destruct (startswith s "``") eqn:E; [|done].
    apply (startswith_app_l s "`" "`") in E. congruence. }
  rewrite replace_from_keep by done. rewrite startswith_cons.
  destruct (bool_decide ("`"%char = c)); [|done]. cbn [andb] in *.
  destruct s as [|c2 s]; [done|].
  rewrite startswith_cons, startswith_nil, andb_true_r in Hs.
  rewrite replace_from_keep.
  - by rewrite startswith_cons, Hs.
  - by rewrite startswith_cons, Hs.
Qed.

Lemma remove_fences_clean s k :
  contains (replace_from "```" "" k s) "```" = false.
Proof.
  revert k. induction s as [|c s IH]; intros k; [done|].
  destruct k as [|k]; [|by rewrite replace_from_skip].
  destruct (startswith (String c s) "```") eqn:Hsw.
  - rewrite replace_from_hit by done. rewrite append_nil_l. apply IH.
  - rewrite replace_from_keep by done.
    rewrite contains_cons, IH, orb_false_r.
    change "```" with (String "`" "``") in *.
    rewrite startswith_cons in *.
    destruct (bool_decide ("`"%char = c)); [|done]. cbn [andb] in *.
    by apply remove_fences_no_pair.
Qed.

Lemma replace_fence s : replace s "```" "" = replace_from "```" "" 0 s.
Proof. done. Qed.

Lemma startswith_app p t : startswith (p +:+ t) p = true.
Proof.
  induction p as [|a p IH]; [apply startswith_nil|].
  by rewrite append_cons, startswith_cons, bool_decide_true, IH.
Qed.

Lemma startswith_app_app p t q : startswith (p +:+ t) (p +:+ q) = startswith t q.
Proof.
  induction p as [|a p IH]; [done|].
  by rewrite !append_cons, startswith_cons, bool_decide_true, IH.
Qed.

(** A text followed by a character that the prefix does not hold begins
    with the prefix only if the text alone does. *)
Lemma startswith_app_absent body t q a :
  startswith t (String a "") = true →
  contains q (String a "") = false →
  startswith (body +:+ t) q = startswith body q.
Proof.
  intros Ht. revert q. induction body as [|c body IH]; intros q Hq.
  - rewrite append_nil_l. destruct q as [|b q]; [apply startswith_nil|].
    rewrite contains_cons, startswith_cons in Hq.
    apply orb_false_iff in Hq as [Hb _].
    rewrite startswith_nil, andb_true_r in Hb.
    destruct t as [|a' t]; [done|].
    rewrite startswith_cons, startswith_nil, andb_true_r in Ht.
    apply bool_decide_eq_true in Ht as <-.
    rewrite startswith_cons. rewrite bool_decide_false; [done|].
    apply bool_decide_eq_false in Hb. congruence.
  - rewrite append_cons. destruct q as [|b q]; [done|].
    rewrite !startswith_cons. f_equal. apply IH.
    rewrite contains_cons in Hq. by apply orb_false_iff in Hq as [_ ?].
Qed.

Lemma replace_from_pass old new u t :
  replace_from old new (String.length u) (u +:+ t) = replace_from old new 0 t.
Proof.
  induction u as [|c u IH]; [done|].
  rewrite append_cons. cbn [String.length]. by rewrite replace_from_skip.
Qed.

Lemma replace_from_prefix a old new t :
  replace_from (String a old) new 0 (String a old +:+ t)
  = new +:+ replace_from (String a old) new 0 t.
Proof.
  pose proof (startswith_app (String a old) t) as Hsw.
  rewrite append_cons in Hsw |- *. rewrite replace_from_hit by done.
  cbn [String.length]. rewrite Nat.sub_1_r. cbn [Nat.pred].
  by rewrite replace_from_pass.
Qed.

Lemma remove_fences_body body :
  contains body "`" = false →
  replace (body +:+ "```") "```" "" = body.
Proof.
  intros Hbody. rewrite replace_fence.
  rewrite replace_from_absent by done.
  change (replace_from "```" "" 0 "```") with "". apply append_nil_r.
Qed.

End text_facts.

Section cleaning.
Context {laws : PyStripLaws py}.
Import PyText.
Implicit Types (s p body : string).

Lemma contains_strip s p : contains (str_strip s) p = true → contains s p = true.
Proof.
  intros H. destruct (str_strip_part s) as (a & b & Heq).
  rewrite Heq. by apply contains_app_r, contains_app_l.
Qed.

Lemma clean_response_fenced_clean s :
  contains (str_strip (replace s "```" "")) "```" = false.
Proof.
  destruct (contains (str_strip (replace s "```" "")) "```") eqn:H; [|done].
  apply contains_strip in H. rewrite replace_fence in H.
  by rewrite remove_fences_clean in H.
Qed.

(** A text between two fences has nothing for [strip] to remove. *)
Lemma strip_fenced p body :
  str_strip (String "`" p +:+ body +:+ "```") = String "`" p +:+ body +:+ "```".
Proof.
  replace (String "`" p +:+ body +:+ "```")
    with (String "`" ((p +:+ body +:+ "``") +:+ String "`" "")).
  - apply str_strip_graphic; split; by apply Nat.leb_le.
  - rewrite append_cons. f_equal. by rewrite !append_assoc.
Qed.

(** X15. When the stripped response begins with a fence, the cleaned
    response holds no fence at all: every run of three back-quotes is
    removed, wherever it stands.  ([str.strip] returns a part of its
    argument.) *)
Theorem clean_response_no_fence (content : string) :
  PyText.startswith (str_strip content) "```" = true →
  PyText.contains (clean_response content) "```" = false.
Proof.
  intros Hfence. unfold clean_response.
  destruct (PyText.startswith (str_strip content) "```json");
    [apply clean_response_fenced_clean|].
  rewrite Hfence. apply clean_response_fenced_clean.
Qed.

(** X16. A response that is a text without back-quotes between a
    ["```json"] fence and a closing fence, with any white space around
    (strings that [str.strip] takes to the empty string), is cleaned to
    the stripped text. *)
Theorem clean_response_json_fenced (ws1 body ws2 : string) :
  str_strip ws1 = "" → str_strip ws2 = "" →
  PyText.contains body "`" = false →
  clean_response (ws1 +:+ ("```json" +:+ body +:+ "```") +:+ ws2)
  = str_strip body.
Proof.
  intros H1 H2 Hbody. unfold clean_response.
  rewrite str_strip_outer by done.
  rewrite (strip_fenced "``json").
  rewrite startswith_app. f_equal.
  change (PyText.replace ("```json" +:+ body +:+ "```") "```json" "")
    with (PyText.replace_from "```json" "" 0 ("```json" +:+ body +:+ "```")).
  rewrite replace_from_prefix, append_nil_l.
  rewrite replace_from_absent by done.
  change (PyText.replace_from "```json" "" 0 "```") with "```".
  by apply remove_fences_body.
Qed.

(** X17. A response that is a text without back-quotes between two plain
    fences, with any white space around (strings that [str.strip] takes
    to the empty string), is cleaned to the stripped text, unless the
    text begins with ["json"]. *)
Theorem clean_response_plain_fenced (ws1 body ws2 : string) :
  str_strip ws1 = "" → str_strip ws2 = "" →
  PyText.contains body "`" = false →
  PyText.startswith body "json" = false →
  clean_response (ws1 +:+ ("```" +:+ body +:+ "```") +:+ ws2)
  = str_strip body.
Proof.
  intros H1 H2 Hbody Hjson. unfold clean_response.
  rewrite str_strip_outer by done.
  rewrite (strip_fenced "``").
  change "```json" with ("```" +:+ "json").
  rewrite startswith_app_app.
  rewrite (startswith_app_absent body "```" "json" "`") by done.
  rewrite Hjson, startswith_app. f_equal.
  change (PyText.replace ("```" +:+ body +:+ "```") "```" "")
    with (PyText.replace_from "```" "" 0 ("```" +:+ body +:+ "```")).
  rewrite replace_from_prefix, append_nil_l.
  by apply remove_fences_body.
Qed.

(** X18. Cleaning is idempotent: a cleaned response has nothing left to
    strip and begins with no fence, so cleaning it again gives it
    back.  ([str.strip] returns a part of its argument and leaves a
    stripped string as it is.) *)
Theorem clean_response_idempotent (content : string) :
  clean_response (clean_response content) = clean_response content.
Proof.
  assert (∀ r, str_strip r = r → PyText.startswith r "```" = false →
               clean_response r = r) as Hfix.
  { intros r Hr Hno. unfold clean_response. rewrite Hr, Hno.
    destruct (PyText.startswith r "```json") eqn:Hj; [|done].
    change "```json" with ("```" +:+ "json") in Hj.
    apply startswith_app_l in Hj. congruence. }
  assert (∀ s, PyText.startswith
                 (str_strip (PyText.replace s "```" "")) "```" = false)
    as Hclean.
  { intros s.
    destruct (PyText.startswith _ "```") eqn:Hsw; [|done].
    apply startswith_contains in Hsw.
    by rewrite clean_response_fenced_clean in Hsw. }
  assert (str_strip (clean_response content) = clean_response content
          ∧ PyText.startswith (clean_response content) "```" = false)
    as [Hstrip Hno].
  { unfold clean_response.
    destruct (PyText.startswith (str_strip content) "```json") eqn:Hj.
    { split; [apply str_strip_idemp|apply Hclean]. }
    destruct (PyText.startswith (str_strip content) "```") eqn:Hf.
    { split; [apply str_strip_idemp|apply Hclean]. }
    split; [apply str_strip_idemp|done]. }
  by apply Hfix.
Qed.

End cleaning.

End properties.

(** * ASCII text

    The ASCII white space and case folding have the properties taken of
    [str.strip] and [str.lower]. *)

Section ascii_facts.
Import AsciiStr.
Implicit Types (s t ws : string) (c d : ascii).

Lemma lstrip_all_space ws : all_space ws = true → lstrip ws = "".
Proof.
  induction ws as [|c ws IH]; simpl; [done|].
  intros [Hc Hws]%andb_true_iff. rewrite Hc. by apply IH.
Qed.

Lemma lstrip_app_all_space ws s : all_space ws = true → lstrip (ws +:+ s) = lstrip s.
Proof.
  induction ws as [|c ws IH]; [done|].
  intros H. cbn [all_space] in H. apply andb_true_iff in H as [Hc Hws].
  rewrite append_cons. cbn [lstrip]. rewrite Hc. by apply IH.
Qed.

Lemma rstrip_all_space ws : all_space ws = true → rstrip ws = "".
Proof.
  induction ws as [|c ws IH]; simpl; [done|].
  intros [Hc Hws]%andb_true_iff. by rewrite IH, Hc.
Qed.

Lemma rstrip_app_all_space s ws : all_space ws = true → rstrip (s +:+ ws) = rstrip s.
Proof.
  intros Hws. induction s as [|c s IH].
  - by rewrite append_nil_l, rstrip_all_space.
  - rewrite append_cons. cbn [rstrip]. by rewrite IH.
Qed.

(** [rstrip] drops the first character and everything, or keeps it. *)
Lemma rstrip_cons c s :
  rstrip (String c s) = "" ∨ rstrip (String c s) = String c (rstrip s).
Proof. simpl. destruct (rstrip s); [destruct (is_space c)|]; auto. Qed.

Lemma rstrip_idemp s : rstrip (rstrip s) = rstrip s.
Proof.
  induction s as [|c s IH]; [done|]. simpl.
  destruct (rstrip s) as [|c' t] eqn:Hs.
  - destruct (is_space c) eqn:Hc; simpl; by rewrite ?Hc.
  - simpl in *. by rewrite IH.
Qed.

Lemma lstrip_unled s : unled (lstrip s).
Proof.
  induction s as [|c s IH]; simpl; [done|].
  by destruct (is_space c) eqn:Hc.
Qed.

Lemma unled_lstrip s : unled s → lstrip s = s.
Proof. destruct s as [|c s]; simpl; [done|]. by intros ->. Qed.

Lemma rstrip_unled s : unled s → unled (rstrip s).
Proof.
  destruct s as [|c s]; [done|]. intros Hc.
  destruct (rstrip_cons c s) as [->| ->]; done.
Qed.

Lemma strip_idemp s : strip (strip s) = strip s.
Proof.
  unfold strip.
  rewrite (unled_lstrip (rstrip (lstrip s)))
    by apply rstrip_unled, lstrip_unled.
  apply rstrip_idemp.
Qed.

Lemma strip_app_all_space ws1 s ws2 :
  all_space ws1 = true → all_space ws2 = true →
  strip (ws1 +:+ s +:+ ws2) = strip s.
Proof.
  intros H1 H2. unfold strip. rewrite lstrip_app_all_space by done.
  induction s as [|c s IH].
  - by rewrite append_nil_l, lstrip_all_space, rstrip_all_space.
  - rewrite append_cons. cbn [lstrip].
    destruct (is_space c) eqn:Hc; [done|].
    by rewrite <- append_cons, rstrip_app_all_space.
Qed.

Lemma rstrip_app_kept s t : rstrip t ≠ "" → rstrip (s +:+ t) = s +:+ rstrip t.
Proof.
  intros Ht. induction s as [|c s IH]; [done|].
  rewrite !append_cons. cbn [rstrip]. rewrite IH.
  destruct (s +:+ rstrip t) eqn:E; [|done].
  destruct s; [by rewrite append_nil_l in E|by rewrite append_cons in E].
Qed.

Lemma lstrip_part s : ∃ a, s = a +:+ lstrip s.
Proof.
  induction s as [|c s [a IH]]; [by exists ""|]. cbn [lstrip].
  destruct (is_space c); [|by exists ""].
  exists (String c a). by rewrite append_cons, <- IH.
Qed.

Lemma rstrip_part s : ∃ b, s = rstrip s +:+ b.
Proof.
  induction s as [|c s [b IH]]; [by exists ""|].
  destruct (rstrip_cons c s) as [Heq|Heq]; rewrite Heq.
  - by exists (String c s).
  - exists b. by rewrite append_cons, <- IH.
Qed.

Lemma strip_part s : ∃ a b, s = a +:+ strip s +:+ b.
Proof.
  unfold strip. destruct (lstrip_part s) as [a Ha].
  destruct (rstrip_part (lstrip s)) as [b Hb].
  exists a, b. by rewrite <- Hb.
Qed.

Lemma rstrip_empty s : rstrip s = "" → all_space s = true.
Proof.
  induction s as [|c s IH]; [done|]. cbn [rstrip all_space].
  destruct (rstrip s); [|done].
  destruct (is_space c); [|done]. intros _. by apply IH.
Qed.

Lemma lstrip_all_space_inv s : all_space (lstrip s) = true → all_space s = true.
Proof.
  induction s as [|c s IH]; [done|]. cbn [lstrip].
  destruct (is_space c) eqn:Hc; [|done].
  intros H. cbn [all_space]. by rewrite Hc, IH.
Qed.

Lemma strip_empty s : strip s = "" → all_space s = true.
Proof. intros H. by apply lstrip_all_space_inv, rstrip_empty. Qed.

Lemma graphic_not_space c : graphic c → is_space c = false.
Proof.
  unfold graphic, is_space. intros [H1 H2]. cbn zeta.
  apply orb_false_iff. split; apply andb_false_iff; right;
    apply Nat.leb_gt; lia.
Qed.

Lemma strip_graphic c t d :
  graphic c → graphic d →
  strip (String c (t +:+ String d "")) = String c (t +:+ String d "").
Proof.
  intros Hc%graphic_not_space Hd%graphic_not_space. unfold strip.
  rewrite (unled_lstrip (String c (t +:+ String d ""))) by exact Hc.
  rewrite <- append_cons.
  rewrite rstrip_app_kept; cbn [rstrip]; by rewrite Hd.
Qed.

End ascii_facts.

(** The ASCII white space has the properties taken of [str.strip]. *)
Lemma ascii_strip_laws : PyStripLaws ascii_str.
Proof.
  split; cbn [str_strip ascii_str].
  - apply strip_part.
  - apply strip_idemp.
  - intros ws1 s ws2 H1%strip_empty H2%strip_empty.
    by apply strip_app_all_space.
  - apply strip_graphic.
Qed.

(** * The scenarios of the specification and instances of the properties

    On ASCII text, where [str.lower] folds the letters A-Z and
    [str.strip] removes the ASCII white space. *)

#[local] Existing Instance ascii_str.

(** Scenario D of the specification: three merges in sequence, each with
    its own date; the last date stands. *)
Example scenario_D :
  let r0 := PrescriptionData_init None in
  let '(h1, r1) := _merge_prescription_data [] {| nd_scalars := Samples.scalars "CVS" "2024-01-01"; nd_medicines := Some [] |} r0 in
  let '(h2, r2) := _merge_prescription_data h1 {| nd_scalars := Samples.scalars "none" "2024-02-02"; nd_medicines := Some [] |} r1 in
  let '(h3, r3) := _merge_prescription_data h2 {| nd_scalars := Samples.scalars "none" "2024-03-03"; nd_medicines := Some [] |} r2 in
  date r3 = "2024-03-03" ∧ pharmacy_or_doctor_name r3 = "CVS".
Proof. vm_compute. done. Qed.

(** Scenario C of the specification: an unmatched incoming medicine is
    appended after the existing one. *)
Example scenario_C :
  (_merge_medicines Samples.store_C [1] [0]).2 = [0; 1].
Proof. vm_compute. done. Qed.

Lemma merged_medicines_no_duplicates_witness :
  no_duplicate_names Samples.store_B
    (retained Samples.store_B [0])
  ∧ no_duplicate_names (_merge_medicines Samples.store_B [1] [0]).1
      (_merge_medicines Samples.store_B [1] [0]).2.
Proof.
  assert (no_duplicate_names Samples.store_B (retained Samples.store_B [0]))
    as Hnd.
  { vm_compute. apply NoDup_singleton. }
  split; [exact Hnd|].
  exact (merged_medicines_no_duplicates Samples.store_B [1] [0] Hnd).
Defined.

(** C3 as stated fails: an existing list that already holds two entries
    with the same normalised name keeps both. *)
Lemma merged_medicines_duplicates_kept :
  ¬ no_duplicate_names (_merge_medicines Samples.store_dup [] [0; 1]).1
      (_merge_medicines Samples.store_dup [] [0; 1]).2.
Proof.
  unfold no_duplicate_names.
  replace (med_name _ <$> _) with ["aspirin"; "aspirin"] by (by vm_compute).
  intros Hnd. apply NoDup_cons in Hnd as [Hnin _].
  apply Hnin. apply list_elem_of_singleton. done.
Qed.

Lemma merged_medicines_nonempty_witness :
  medicine_values
    (_merge_medicines [Medicine_asdict; Medicine_asdict] [0] [1]).1
    (_merge_medicines [Medicine_asdict; Medicine_asdict] [0] [1]).2
  = [Medicine_asdict].
Proof.
  apply (merged_medicines_nonempty [Medicine_asdict; Medicine_asdict] [] []);
    reflexivity.
Defined.

Lemma degenerate_entry_skipped_witness :
  _merge_medicines (Samples.store_C ++ [Medicine_asdict]) ([1] ++ 2 :: [0]) [] =
    _merge_medicines (Samples.store_C ++ [Medicine_asdict]) ([1] ++ [0]) [].
Proof.
  apply (degenerate_entry_skipped
           (Samples.store_C ++ [Medicine_asdict]) [1] [0] [] 2).
  right. reflexivity.
Defined.

Lemma matched_entry_updated_witness :
  let st' := merge_step (Samples.store_B, [0]) 1 in
  st'.2 = [0]
  ∧ ∀ key value, get (deref Samples.store_B 1) key = Some value →
      (value ≠ "none" → value ≠ "" → get (deref st'.1 0) key = Some value)
      ∧ (value = "none" →
         get (deref st'.1 0) key = get (deref Samples.store_B 0) key).
Proof.
  apply (matched_entry_updated Samples.store_B [0] 1 0 0).
  - reflexivity.
  - reflexivity.
  - reflexivity.
  - intros j y _ Hj. lia.
Defined.

(** Scenario A of the specification: merged into the record of a new
    session, an incoming response is taken as it is. *)
Example scenario_A :
  let incoming :=
    {| nd_scalars := Samples.scalars "CVS" "none"; nd_medicines := Some [0] |} in
  let '(h', merged) :=
    _merge_prescription_data Samples.store_B incoming
      (PrescriptionData_init None) in
  h' = Samples.store_B
  ∧ merged = Samples.record "CVS" "none" [0].
Proof. vm_compute. done. Qed.

(** Scenario B of the specification: the incoming entry matches the
    existing one whatever the case of its name; the quantity it lacks
    stays, the side effects it brings are taken, and the pharmacy stays. *)
Example scenario_B :
  let '(h', merged) :=
    _merge_prescription_data Samples.store_B Samples.incoming_B
      Samples.existing_B in
  pharmacy_or_doctor_name merged = "CVS"
  ∧ medicine_values h' (medicines_names merged) =
      [Samples.medicine "AMOXICILLIN" "none" "30 tabs" "drowsiness"].
Proof. vm_compute. done. Qed.



Lemma noop_merge_witness :
  let empty := _get_default_response Samples.store_C in
  let result :=
    _merge_prescription_data empty.1 empty.2 (Samples.record "CVS" "none" [0; 1]) in
  getattr result.2 <$> scalar_fields =
    getattr (Samples.record "CVS" "none" [0; 1]) <$> scalar_fields
  ∧ (record_value result.1 result.2 =
       record_value Samples.store_C (Samples.record "CVS" "none" [0; 1])
     ↔ (medicines_names (Samples.record "CVS" "none" [0; 1]) ≠ []
        ∧ Forall (λ r, get (deref Samples.store_C r) "medicine_name" ≠ Some "none")
            (medicines_names (Samples.record "CVS" "none" [0; 1])))
       ∨ medicine_values Samples.store_C
           (medicines_names (Samples.record "CVS" "none" [0; 1]))
         = [Medicine_asdict]).
Proof.
  apply (noop_merge Samples.store_C (Samples.record "CVS" "none" [0; 1])).
  unfold valid. simpl. repeat (apply Forall_cons_2; [lia|]).
  apply Forall_nil_2.
Defined.

(** C2 as stated fails: the record a session starts with has an empty
    medicine list, and merging the default response into it gives a
    record whose medicine list holds a placeholder. *)
Lemma noop_merge_changes_fresh_record :
  let empty := _get_default_response [] in
  let result :=
    _merge_prescription_data empty.1 empty.2 (PrescriptionData_init None) in
  record_value result.1 result.2
  ≠ record_value [] (PrescriptionData_init None).
Proof.
  cbn zeta. intros Heq.
  apply (f_equal (λ v, length v.2)) in Heq.
  vm_compute in Heq. discriminate Heq.
Qed.

(** C9 as stated fails: the medicine list of the record of a new session
    is not a single placeholder entry; it has no entry. *)
Lemma fresh_record_has_no_placeholder :
  medicine_values []
    (medicines_names (existing_data (reset_data PrescriptionExtractor_init)))
  ≠ [Medicine_asdict].
Proof. cbn. discriminate. Qed.

Lemma absent_keys_witness :
  _merge_prescription_data Samples.store_B
    {| nd_scalars := <["date" := "none"]> (nd_scalars Samples.incoming_partial);
       nd_medicines := nd_medicines Samples.incoming_partial |}
    Samples.existing_B
  = _merge_prescription_data Samples.store_B Samples.incoming_partial
      Samples.existing_B
  ∧ getattr (_merge_prescription_data Samples.store_B
               Samples.incoming_partial Samples.existing_B).2 f_date
    = getattr Samples.existing_B f_date
  ∧ _merge_prescription_data Samples.store_B
      {| nd_scalars := nd_scalars Samples.incoming_partial;
         nd_medicines := Some [] |} Samples.existing_B
    = _merge_prescription_data Samples.store_B Samples.incoming_partial
        Samples.existing_B.
Proof.
  pose proof (absent_keys Samples.store_B Samples.incoming_partial
                Samples.existing_B) as (Hkey & Hfield & Hmeds).
  split_and!.
  - apply (Hkey "date"). reflexivity.
  - apply (Hfield f_date). reflexivity.
  - apply Hmeds. reflexivity.
Defined.

Lemma merge_keeps_normalized_names_witness :
  med_name
    (_merge_prescription_data Samples.store_B Samples.incoming_B
       Samples.existing_B).1 0
  = med_name Samples.store_B 0.
Proof.
  apply (merge_keeps_normalized_names Samples.store_B Samples.incoming_B
           Samples.existing_B 0).
  simpl. lia.
Defined.

Lemma merge_loses_no_medicine_witness :
  0 ∈ (_merge_medicines Samples.store_C [1] [0]).2
  ∧ med_name Samples.store_C 1 ∈
      med_name (_merge_medicines Samples.store_C [1] [0]).1
        <$> (_merge_medicines Samples.store_C [1] [0]).2.
Proof.
  pose proof (merge_loses_no_medicine Samples.store_C [1] [0]) as [Hex Hnew].
  split.
  - apply Hex; [by left|]. vm_compute. discriminate.
  - apply Hnew; [by left|]. reflexivity.
Defined.

Lemma merged_entry_origin_witness :
  (1 ∈ [0] ∧ get (deref Samples.store_C 1) "medicine_name" ≠ Some "none")
  ∨ (1 ∈ [1] ∧ mergeable Samples.store_C 1 = true)
  ∨ (1 = length Samples.store_C
     ∧ (_merge_medicines Samples.store_C [1] [0]).2 = [1]
     ∧ (_merge_medicines Samples.store_C [1] [0]).1
       = Samples.store_C ++ [Medicine_asdict]
     ∧ (merge_loop Samples.store_C [1] [0]).2 = []).
Proof.
  apply (merged_entry_origin Samples.store_C [1] [0] 1).
  vm_compute. right. left.
Defined.

Lemma merged_entries_real_names_witness :
  0 = length ([] : heap)
  ∧ (_merge_medicines [] [] []).2 = [0]
  ∧ deref (_merge_medicines [] [] []).1 0 = Medicine_asdict.
Proof.
  apply (merged_entries_real_names [] [] [] 0).
  - vm_compute. left.
  - reflexivity.
Defined.

Lemma merge_writes_only_to_listed_entries_witness :
  (_merge_prescription_data Samples.store_dup
     {| nd_scalars := ∅; nd_medicines := Some [1] |}
     (PrescriptionData_init None)).1 !! 0
  = Some (Samples.medicine "Aspirin" "none" "none" "none").
Proof.
  apply (merge_writes_only_to_listed_entries Samples.store_dup
           {| nd_scalars := ∅; nd_medicines := Some [1] |}
           (PrescriptionData_init None) 0).
  - reflexivity.
  - simpl. apply not_elem_of_nil.
  - simpl. intros Hin. apply list_elem_of_singleton in Hin. lia.
Defined.

Lemma merge_without_named_entries_writes_nothing_witness :
  (_merge_prescription_data (_get_default_response Samples.store_B).1
     (_get_default_response Samples.store_B).2 Samples.existing_B).1 !! 0
  = Some (Samples.medicine "Amoxicillin" "none" "30 tabs" "none").
Proof.
  apply (merge_without_named_entries_writes_nothing
           (_get_default_response Samples.store_B).1
           (_get_default_response Samples.store_B).2 Samples.existing_B 0).
  - simpl. apply Forall_cons_2; [reflexivity|apply Forall_nil_2].
  - reflexivity.
Defined.

Lemma matched_entry_rest_untouched_witness :
  let st' := merge_step (Samples.store_B, [0]) 1 in
  (∀ key, get (deref Samples.store_B 1) key = None
          ∨ get (deref Samples.store_B 1) key = Some "" →
          get (deref st'.1 0) key = get (deref Samples.store_B 0) key)
  ∧ (∀ r', r' ≠ 0 → deref st'.1 r' = deref Samples.store_B r').
Proof.
  apply (matched_entry_rest_untouched Samples.store_B [0] 1 0 0).
  - reflexivity.
  - reflexivity.
  - reflexivity.
  - intros j y _ Hj. lia.
Defined.

Lemma session_field_last_write_witness :
  let dated day : response :=
    ([], Parsed {| nd_scalars := Samples.scalars "none" day;
                   nd_medicines := None |}) in
  getattr
    (existing_data
       (session ([], PrescriptionExtractor_init)
          ([dated "2024-01-01"]
             ++ dated "2024-02-02" :: [dated "none"; ([], Unmergeable [])])).2)
    f_date
  = brought (dated "2024-02-02").2 f_date.
Proof.
  intros dated.
  apply (session_field_last_write ([], PrescriptionExtractor_init)
           [dated "2024-01-01"] [dated "none"; ([], Unmergeable [])]
           (dated "2024-02-02") f_date).
  - vm_compute. discriminate.
  - repeat (apply Forall_cons_2; [reflexivity|]). apply Forall_nil_2.
Defined.

Lemma session_field_kept_witness :
  let silent : response :=
    ([], Parsed {| nd_scalars := ∅; nd_medicines := None |}) in
  getattr
    (existing_data
       (session ([], {| existing_data := Samples.existing_B |})
          [silent; ([], NoReply); silent]).2)
    f_pharmacy_or_doctor_name
  = getattr Samples.existing_B f_pharmacy_or_doctor_name.
Proof.
  intros silent.
  apply (session_field_kept ([], {| existing_data := Samples.existing_B |})
           [silent; ([], NoReply); silent] f_pharmacy_or_doctor_name).
  repeat (apply Forall_cons_2; [reflexivity|]). apply Forall_nil_2.
Defined.

Lemma current_data_is_a_snapshot_witness :
  let self := {| existing_data := Samples.existing_B |} in
  let resp : response :=
    ([Samples.medicine "amoxicillin" "daily" "none" "none"],
     Parsed {| nd_scalars := ∅; nd_medicines := Some [3] |}) in
  let snapshot := get_current_data Samples.store_B self in
  let copies := default [] (nd_medicines snapshot.2) in
  (∀ f, get (nd_scalars snapshot.2) (field_name f)
        = Some (getattr (existing_data self) f))
  ∧ medicine_values snapshot.1 copies
    = medicine_values Samples.store_B (medicines_names (existing_data self))
  ∧ medicine_values (receive (snapshot.1, self) resp).1 copies
    = medicine_values snapshot.1 copies.
Proof.
  intros self resp.
  apply (current_data_is_a_snapshot Samples.store_B self resp).
  - unfold valid. simpl. apply Forall_cons_2; [lia|apply Forall_nil_2].
  - simpl. apply Forall_cons_2; [|apply Forall_nil_2].
    intros Hin. apply list_elem_of_singleton in Hin. lia.
Defined.

Lemma clean_response_no_fence_witness :
  PyText.contains (clean_response " ```{}``` ") "```" = false.
Proof.
  apply (clean_response_no_fence (laws := ascii_strip_laws) " ```{}``` ").
  reflexivity.
Defined.

Lemma clean_response_json_fenced_witness :
  clean_response (" " +:+ ("```json" +:+ " {x: 1} " +:+ "```") +:+ " ")
  = str_strip " {x: 1} ".
Proof.
  apply (clean_response_json_fenced (laws := ascii_strip_laws)
           " " " {x: 1} " " "); reflexivity.
Defined.

Lemma clean_response_plain_fenced_witness :
  clean_response ("" +:+ ("```" +:+ "{x: 1}" +:+ "```") +:+ " ")
  = str_strip "{x: 1}".
Proof.
  apply (clean_response_plain_fenced (laws := ascii_strip_laws)
           "" "{x: 1}" " "); reflexivity.
Defined.

Lemma clean_response_idempotent_witness :
  clean_response (clean_response " ```json {x: 1} ``` ")
  = clean_response " ```json {x: 1} ``` ".
Proof.
  apply (clean_response_idempotent (laws := ascii_strip_laws)
           " ```json {x: 1} ``` ").
Defined.
